(** * emacs-lzw: the LZW compressor and decompressor of [src/lzw.c]

    A shallow embedding of [lzw_compress] and [lzw_decompress] and of the
    dictionary trie they use, with the properties of the design document
    stated and settled against it.

    Conventions of the embedding.
    - A [char] is a [Byte.byte]; conversions to and from the integer types of
      the C code are [char_to_Z] and [Z_to_char] (reduction modulo 256).
    - An [unsigned int] is a [Z], 32 bits wide and 4 bytes long; where the C
      arithmetic can wrap the wrap is written with [u32].
    - The C code has no error results.  What it can do besides returning is
      leave the defined behaviour of C (reading past an array, copying from
      a pointer that was never assigned or with a length that was never
      written, writing past a buffer); the embedding makes these outcomes
      explicit as [Undefined] with the fault met first. *)

From Stdlib Require Import ZArith List Lia.
From Stdlib.Strings Require Import Byte.
From stdpp Require Import base option list gmap.

Local Open Scope Z_scope.

(** ** Outcomes *)

Inductive fault : Type :=
  | SrcOutOfBounds      (* read of src[i] with i >= len *)
  | DictOutOfBounds     (* dict[k] with k outside 0 .. dict_size-1 *)
  | DictUninitialised   (* dict[k] or dict_lens[k] used before slot k was written *)
  | DestOverflow        (* memcpy past the end of dest *)
  | SubstrOverflow.     (* write past substr[BUF_SIZE] / substr_ch[BUF_SIZE] *)

Inductive outcome (A : Type) : Type :=
  | Done (a : A)
  | Undefined (f : fault).
Arguments Done {A} a.
Arguments Undefined {A} f.

Definition bind {A B : Type} (m : outcome A) (k : A -> outcome B) : outcome B :=
  match m with
  | Done a => k a
  | Undefined f => Undefined f
  end.

Notation "'do' x <- m ; k" := (bind m (fun x => k))
  (at level 10, x name, m at level 100, k at level 200).

(** ** Machine integers and bytes *)

Definition u32 (z : Z) : Z := z mod 2 ^ 32.

Definition char_to_Z (b : byte) : Z := Z.of_N (Byte.to_N b).

Definition Z_to_char (z : Z) : byte :=
  match Byte.of_N (Z.to_N (z mod 256)) with
  | Some b => b
  | None => x00
  end.

#[global] Instance byte_eq_dec : EqDecision byte := Byte.byte_eq_dec.

(** Modelled from the spec: the typedef of [codeword] is in none of the
    sources.  The spec calls it a fixed-width unsigned integer;
    [lzw_compress] stores its [unsigned int len] in [dest[0]] and
    [lzw_decompress] compares codewords with its [unsigned int] counters,
    so the width is taken to be that of [unsigned int]. *)
Definition to_codeword (z : Z) : Z := u32 z.

Definition BUF_SIZE : Z := 32768.

(** ** The dictionary trie *)

Module Trie.

(** Modelled from the spec: [trie.c] is missing; [trie.h] only names the
    structs [trie_child], [trie_node] and [trie].  The spec (3, 4.1): a node
    stands for the byte string spelled by the edges from the root, has up to
    256 labelled children and carries a codeword iff that string was
    inserted; [init] gives a trie with no entries; [insert] adds the string,
    or leaves the trie unchanged if it is present; [lookup] gives the
    codeword of exactly that string, and the reference conflates absence
    with codeword value 0.

    The calls in [lzw.c] are [trie_put(dict, w, len)] and
    [trie_get(dict, w, len)]: no codeword is passed, so the trie numbers its
    entries itself, in insertion order.  Absence is 0 ([trie_get(..) == 0]
    in [lzw_compress]), dynamic entries start at 257 after the 256 seed
    insertions (spec 3), and [lzw_decompress] keeps byte [c-1] in slot [c],
    1 <= c <= 256: the numbering starts at 1.  (The spec's data model puts
    the single bytes at 0 .. 255 and reserves 256; with that numbering
    [lzw_compress] would take the byte 0 for an absent string, and
    [lzw_decompress] would decode every byte of its output one too low.)
    What is stated of the numbers themselves is stated for every trie, in
    [AnyTrie] below. *)
#[local] Set Warnings "-register-all".
Inductive TrieNode : Type :=
  | Node (cw : Z) (children : list (byte * TrieNode)).

Record Trie : Type := { root : TrieNode; next : Z }.

Definition node_cw (n : TrieNode) : Z := let 'Node c _ := n in c.
Definition node_children (n : TrieNode) : list (byte * TrieNode) :=
  let 'Node _ ch := n in ch.

Definition empty_node : TrieNode := Node 0 [].

Fixpoint child_find (b : byte) (ch : list (byte * TrieNode)) : option TrieNode :=
  match ch with
  | [] => None
  | (k, n) :: ch' => if Byte.eqb k b then Some n else child_find b ch'
  end.

Fixpoint child_update (b : byte) (f : TrieNode -> TrieNode)
    (ch : list (byte * TrieNode)) : list (byte * TrieNode) :=
  match ch with
  | [] => [(b, f empty_node)]
  | (k, n) :: ch' =>
      if Byte.eqb k b then (k, f n) :: ch' else (k, n) :: child_update b f ch'
  end.

Fixpoint node_get (w : list byte) (n : TrieNode) : Z :=
  match w with
  | [] => node_cw n
  | b :: w' =>
      match child_find b (node_children n) with
      | Some m => node_get w' m
      | None => 0
      end
  end.

Fixpoint node_put (w : list byte) (c : Z) (n : TrieNode) : TrieNode :=
  match w with
  | [] => Node (if node_cw n =? 0 then c else node_cw n) (node_children n)
  | b :: w' => Node (node_cw n) (child_update b (node_put w' c) (node_children n))
  end.

Definition trie_init : Trie := {| root := empty_node; next := 1 |}.

(** [trie_get(t, w, len)]: [w] is the list of the [len] bytes passed. *)
Definition trie_get (t : Trie) (w : list byte) : Z := node_get w (root t).

Definition trie_put (t : Trie) (w : list byte) : Trie :=
  if node_get w (root t) =? 0
  then {| root := node_put w (next t) (root t);
          next := to_codeword (next t + 1) |}
  else t.

End Trie.

Import Trie.

(** ** lzw_compress *)

Module Compress.

(** The variables of the scan: [dest] holds the codewords written to
    [dest[1]], [dest[2]], ... in order, [di] the index of the next write;
    [substr] holds the first [substr_len] bytes of the working buffer. *)
Record state : Type := {
  dict : Trie;
  substr : list byte;
  dest : list Z;
  di : Z
}.

(** Lines 40-49: the 256 one-byte strings, inserted for c = 0, 1, ..., 255. *)
Definition seed : Trie :=
  fold_left (fun t c => trie_put t [Z_to_char c]) (map Z.of_nat (seq 0 256)) trie_init.

Definition init : state :=
  {| dict := seed; substr := []; dest := []; di := 1 |}.

Definition substr_len (s : state) : Z := Z.of_nat (length (substr s)).

(** Lines 58-67, one iteration of the [for] loop on the byte [c = src[i]]. *)
Definition step (s : state) (c : byte) : outcome state :=
  if BUF_SIZE <=? substr_len s then Undefined SubstrOverflow
  else
    let substr' := substr s ++ [c] in
    if trie_get (dict s) substr' =? 0 then
      Done {| dict := trie_put (dict s) substr';
              substr := [c];
              dest := dest s ++ [trie_get (dict s) (substr s)];
              di := u32 (di s + 1) |}
    else
      Done {| dict := dict s; substr := substr'; dest := dest s; di := di s |}.

Fixpoint loop (src : list byte) (s : state) : outcome state :=
  match src with
  | [] => Done s
  | c :: src' => do s' <- step s c; loop src' s'
  end.

End Compress.

(** [lzw_compress(src, len, dest)]: [src] is the buffer of [len] bytes; the
    result is the returned count [di] and the codewords [dest[0 .. di-1]]. *)
Definition lzw_compress (src : list byte) : outcome (Z * list Z) :=
  let len := Z.of_nat (length src) in
  do s <- Compress.loop src Compress.init;
  let dest := Compress.dest s ++ [trie_get (Compress.dict s) (Compress.substr s)] in
  let di := u32 (Compress.di s + 1) in
  Done (di, to_codeword len :: dest).

(** ** lzw_compress over any trie *)

(** Modelled from the spec: [trie.c] is missing, and with it the numbers
    that [trie_put] gives to the strings.  What [lzw_compress] does with
    the trie is written here for every implementation of the three
    functions it calls: a type [T] of tries, [t_init] for [trie_init()],
    [t_put] for [trie_put(dict, w, len)] and [t_get] for
    [trie_get(dict, w, len)], which the code compares with 0 (line 61).
    [Compress] and [lzw_compress] above are the case of [Trie]. *)
Module AnyTrie.
Section Ops.

Variable T : Type.
Variable t_init : T.
Variable t_put : T -> list byte -> T.
Variable t_get : T -> list byte -> Z.

Record state : Type := {
  dict : T;
  substr : list byte;
  dest : list Z;
  di : Z
}.

(** Lines 40-49. *)
Definition seed : T :=
  fold_left (fun t c => t_put t [Z_to_char c]) (map Z.of_nat (seq 0 256)) t_init.

Definition init : state :=
  {| dict := seed; substr := []; dest := []; di := 1 |}.

(** Lines 58-67. *)
Definition step (s : state) (c : byte) : outcome state :=
  if BUF_SIZE <=? Z.of_nat (length (substr s)) then Undefined SubstrOverflow
  else
    let substr' := substr s ++ [c] in
    if t_get (dict s) substr' =? 0 then
      Done {| dict := t_put (dict s) substr';
              substr := [c];
              dest := dest s ++ [t_get (dict s) (substr s)];
              di := u32 (di s + 1) |}
    else
      Done {| dict := dict s; substr := substr'; dest := dest s; di := di s |}.

Fixpoint loop (src : list byte) (s : state) : outcome state :=
  match src with
  | [] => Done s
  | c :: src' => do s' <- step s c; loop src' s'
  end.

(** Lines 38-77. *)
Definition lzw_compress (src : list byte) : outcome (Z * list Z) :=
  let len := Z.of_nat (length src) in
  do s <- loop src init;
  let dest := dest s ++ [t_get (dict s) (substr s)] in
  let di := u32 (di s + 1) in
  Done (di, to_codeword len :: dest).

End Ops.
End AnyTrie.

(** The state of [Compress] as a state of [AnyTrie]. *)
Definition any_state (s : Compress.state) : AnyTrie.state Trie :=
  {| AnyTrie.dict := Compress.dict s; AnyTrie.substr := Compress.substr s;
     AnyTrie.dest := Compress.dest s; AnyTrie.di := Compress.di s |}.

(** ** lzw_decompress *)

(** The struct returned by [lzw_decompress]; its declaration is in none of
    the sources, its two fields are those assigned in lines 179-181.  [str]
    is the content of the [dlen] bytes written to the returned buffer. *)
Record decompression_meta : Type := { str : list byte; dlen : Z }.

Module Decompress.

(** The variables of the loop.  [dict] and [dict_lens] are the two arrays
    of [dict_size] slots.  A key of [dict] is a slot whose pointer was
    assigned, and its value the block of bytes allocated for it (lines 93-94
    and 162-163); a key of [dict_lens] is a slot whose [unsigned int] was
    written, by an assignment (lines 95 and 164) or by the [memset] of line
    159.  A key that is absent is a slot of [malloc] or [realloc] memory
    that was never written.  [dest] holds the [di] bytes written so far. *)
Record state : Type := {
  dict : gmap Z (list byte);
  dict_lens : gmap Z Z;
  dict_size : Z;
  dict_next : Z;
  cw_prev : Z;
  cw_enc : Z;
  dest : list byte;
  di : Z
}.

(** Lines 91-97: [dict[c]] is the one byte [c-1] and [dict_lens[c]] is 1,
    for c = 1, 2, ..., 256. *)
Definition seed : gmap Z (list byte) :=
  fold_left (fun d c => <[c := [Z_to_char (c - 1)]]> d)
            (map Z.of_nat (seq 1 256)) ∅.

Definition seed_lens : gmap Z Z :=
  fold_left (fun d c => <[c := 1]> d) (map Z.of_nat (seq 1 256)) ∅.

(** [memset(dict_lens + from, 0, count)]: [count] is a number of bytes and
    an [unsigned int] has [sizeof_uint] of them, so the slots
    [from], ..., [from + count / sizeof_uint - 1] become 0.  When [count]
    is no multiple of [sizeof_uint] the next slot is cleared in part only;
    it is a slot [realloc] has just added, and its value stays
    indeterminate. *)
Definition sizeof_uint : Z := 4.

Definition memset_lens (lens : gmap Z Z) (from count : Z) : gmap Z Z :=
  fold_left (fun d k => <[k := 0]> d)
            (map (fun i => from + Z.of_nat i)
                 (seq 0 (Z.to_nat (count / sizeof_uint)))) lens.

(** [src[i]] for a stream of [len = length src] codewords. *)
Definition src_read (src : list Z) (i : nat) : outcome Z :=
  match src !! i with
  | Some cw => Done cw
  | None => Undefined SrcOutOfBounds
  end.

(** The bytes that [memcpy(.., dict[k], dict_lens[k])] copies.  A length
    of 0 copies nothing, whatever the pointer in [dict[k]] is (the case of
    a slot the [memset] has cleared).  A length that was never written is
    indeterminate.  Otherwise the pointer must be that of a block; the
    length is then the size of the block, the two being assigned together
    in lines 93-95 and 162-164 (another length does not arise, and is given
    the fault of a read outside the block). *)
Definition dict_read (s : state) (k : Z) : outcome (list byte) :=
  if (0 <=? k) && (k <? dict_size s) then
    match dict_lens s !! k with
    | None => Undefined DictUninitialised
    | Some n =>
        if n =? 0 then Done []
        else
          match dict s !! k with
          | Some e =>
              if n =? Z.of_nat (length e) then Done e
              else Undefined DictOutOfBounds
          | None => Undefined DictUninitialised
          end
    end
  else Undefined DictOutOfBounds.

(** [memcpy(dest+di, e, n); di += n] into a buffer of [dest_len] bytes. *)
Definition emit (dest_len : Z) (s : state) (e : list byte) : outcome state :=
  if di s + Z.of_nat (length e) <=? dest_len then
    Done {| dict := dict s; dict_lens := dict_lens s;
            dict_size := dict_size s; dict_next := dict_next s;
            cw_prev := cw_prev s; cw_enc := cw_enc s;
            dest := dest s ++ e; di := di s + Z.of_nat (length e) |}
  else Undefined DestOverflow.

(** [memcpy(substr_ch, e, n); substr_ch[n] = c; substr_ch_len = n + 1]
    into the array [substr_ch[BUF_SIZE]]. *)
Definition extend (e : list byte) (c : byte) : outcome (list byte) :=
  if Z.of_nat (length e) <? BUF_SIZE then Done (e ++ [c])
  else Undefined SubstrOverflow.

(** The first byte of a block.  Every block is allocated with a length of
    at least 1, so the case of an empty block does not arise; it is given
    the fault of a read outside the block. *)
Definition first_byte (e : list byte) : outcome byte :=
  match e with
  | c :: _ => Done c
  | [] => Undefined DictOutOfBounds
  end.

(** Lines 124-147: the two branches; the result is the state after the
    output was written and [cw_enc] set, with the entry [substr_ch] built. *)
Definition translate (dest_len : Z) (cw : Z) (s : state)
    : outcome (state * list byte) :=
  if cw <? dict_next s then
    do e <- dict_read s cw;
    do s1 <- emit dest_len s e;
    do c <- first_byte e;
    do p <- dict_read s (cw_prev s);
    do substr_ch <- extend p c;
    Done ({| dict := dict s1; dict_lens := dict_lens s1;
             dict_size := dict_size s1;
             dict_next := dict_next s1; cw_prev := cw_prev s1;
             cw_enc := cw; dest := dest s1; di := di s1 |}, substr_ch)
  else
    do p <- dict_read s (cw_enc s);
    do c <- first_byte p;
    do substr_ch <- extend p c;
    do s1 <- emit dest_len s substr_ch;
    Done ({| dict := dict s1; dict_lens := dict_lens s1;
             dict_size := dict_size s1;
             dict_next := dict_next s1; cw_prev := cw_prev s1;
             cw_enc := dict_next s; dest := dest s1; di := di s1 |}, substr_ch).

(** Lines 149-167: grow the table when it is full, clearing
    [dict_size - dict_next] bytes of lengths from slot [dict_next] on; store
    [substr_ch] and its length in slot [dict_next], advance [dict_next],
    remember [cw]. *)
Definition append (cw : Z) (s : state) (substr_ch : list byte) : outcome state :=
  let dict_size' :=
    if dict_next s =? dict_size s then u32 (dict_size s * 2) else dict_size s in
  let dict_lens' :=
    if dict_next s =? dict_size s
    then memset_lens (dict_lens s) (dict_next s) (u32 (dict_size' - dict_next s))
    else dict_lens s in
  if (0 <=? dict_next s) && (dict_next s <? dict_size') then
    Done {| dict := <[dict_next s := substr_ch]> (dict s);
            dict_lens := <[dict_next s := Z.of_nat (length substr_ch)]> dict_lens';
            dict_size := dict_size';
            dict_next := u32 (dict_next s + 1);
            cw_prev := cw; cw_enc := cw_enc s;
            dest := dest s; di := di s |}
  else Undefined DictOutOfBounds.

(** One iteration of the [while] loop on the codeword [cw = src[i]]. *)
Definition step (dest_len : Z) (s : state) (cw : Z) : outcome state :=
  do r <- translate dest_len cw s;
  append cw (fst r) (snd r).

Fixpoint loop (dest_len : Z) (src : list Z) (s : state) : outcome state :=
  match src with
  | [] => Done s
  | cw :: src' => do s' <- step dest_len s cw; loop dest_len src' s'
  end.

(** Lines 81-121: the state on entry to the [while] loop. *)
Definition start (dest_len : Z) (cw : Z) : outcome state :=
  let s0 := {| dict := seed; dict_lens := seed_lens;
               dict_size := 256 + 1; dict_next := 256 + 1;
               cw_prev := cw; cw_enc := cw; dest := []; di := 0 |} in
  do e <- dict_read s0 cw;
  emit dest_len s0 e.

(** The state on exit from the [while] loop, before the cleanup. *)
Definition run (src : list Z) : outcome state :=
  do n <- src_read src 0;
  let dest_len := u32 (n + 1) in
  do cw <- src_read src 1;
  do s <- start dest_len cw;
  loop dest_len (drop 2 src) s.

End Decompress.

(** [lzw_decompress(src, len)]: [src] is the stream of [len] codewords. *)
Definition lzw_decompress (src : list Z) : outcome decompression_meta :=
  do s <- Decompress.run src;
  Done {| str := Decompress.dest s; dlen := Decompress.di s |}.

(** * Invariants and stated properties *)

(** The trie numbers its entries 1, 2, ..., [next - 1] without repetition;
    every one-byte string is present; no entry is empty or longer than the
    working buffer of the compressor. *)
Definition trie_ok (t : Trie) : Prop :=
  (forall w, trie_get t w <> 0 -> 1 <= trie_get t w < next t) /\
  (forall w1 w2, trie_get t w1 <> 0 -> trie_get t w1 = trie_get t w2 -> w1 = w2) /\
  (forall w, trie_get t w <> 0 -> 1 <= Z.of_nat (length w) <= BUF_SIZE) /\
  (forall b, trie_get t [b] <> 0).

(** The table of the decompressor: the slots assigned are exactly
    1 .. [dict_next - 1], the first 256 of them hold the one-byte strings,
    and the table is within its allocation. *)
Definition table_ok (s : Decompress.state) : Prop :=
  257 <= Decompress.dict_next s <= Decompress.dict_size s /\
  Decompress.dict_size s < 2 ^ 32 /\
  (forall c, is_Some (Decompress.dict s !! c) <-> 1 <= c < Decompress.dict_next s) /\
  (forall c, 1 <= c <= 256 -> Decompress.dict s !! c = Some [Z_to_char (c - 1)]).

(** The two arrays of the table agree: the length kept for a slot that
    holds a block is the size of the block. *)
Definition lens_ok (s : Decompress.state) : Prop :=
  forall k e, Decompress.dict s !! k = Some e ->
    Decompress.dict_lens s !! k = Some (Z.of_nat (length e)).

(** The lengths written for slots that hold no block are those the
    [memset] of line 159 cleared last: they are 0, and their slots are
    those from [dict_next] up to [zend], not included. *)
Definition lens_cleared (s : Decompress.state) (zend : Z) : Prop :=
  forall k n, Decompress.dict_lens s !! k = Some n ->
    Decompress.dict s !! k = None ->
    n = 0 /\ Decompress.dict_next s <= k < zend.


(** The lengths after lines 149-164 have stored [sub] in slot [dict_next];
    when the table was full, [dict_size - dict_next] is [dict_next] after
    the size was doubled, and so many bytes were cleared. *)
Definition lens_after (s : Decompress.state) (sub : list byte) : gmap Z Z :=
  <[Decompress.dict_next s := Z.of_nat (length sub)]>
    (if Decompress.dict_next s =? Decompress.dict_size s
     then Decompress.memset_lens (Decompress.dict_lens s)
            (Decompress.dict_next s) (Decompress.dict_next s)
     else Decompress.dict_lens s).

(** The decompressor, having read the codewords the compressor has written
    so far, is one entry behind: it knows every entry of the trie but the
    newest, and the newest is the string of the last codeword followed by
    the first byte of the compressor's current candidate. *)
Record sim (cs : Compress.state) (ds : Decompress.state) : Prop := {
  sim_trie : trie_ok (Compress.dict cs);
  sim_next : next (Compress.dict cs) = Decompress.dict_next ds + 1;
  sim_table : table_ok ds;
  sim_known : forall w,
    1 <= trie_get (Compress.dict cs) w < Decompress.dict_next ds ->
    Decompress.dict ds !! trie_get (Compress.dict cs) w = Some w;
  sim_last : exists p,
    Decompress.dict ds !! Decompress.cw_prev ds = Some p /\ p <> [] /\
    trie_get (Compress.dict cs) (p ++ [hd x00 (Compress.substr cs)])
      = Decompress.dict_next ds;
  sim_enc : Decompress.cw_enc ds = Decompress.cw_prev ds;
  sim_prev : 1 <= Decompress.cw_prev ds < Decompress.dict_next ds;
  sim_cand : trie_get (Compress.dict cs) (Compress.substr cs) <> 0;
  sim_di : Decompress.di ds = Z.of_nat (length (Decompress.dest ds));
  sim_lens : lens_ok ds
}.

(** Decompressing what [lzw_compress] wrote for [B] gives back [B]. *)
Definition roundtrip (B : list byte) : Prop :=
  exists di dest,
    lzw_compress B = Done (di, dest) /\
    lzw_decompress dest = Done {| str := B; dlen := Z.of_nat (length B) |}.

(** The state of the compressor inside a run of one byte [a]: the trie
    holds the strings a, aa, ..., a^(k+1) of that byte, made by [k] writes,
    and the candidate is a^j. *)
Definition in_run (a : byte) (k j : Z) (cs : Compress.state) : Prop :=
  0 <= k /\ 1 <= j <= k + 1 /\ k + 1 <= BUF_SIZE /\
  Compress.substr cs = repeat a (Z.to_nat j) /\
  next (Compress.dict cs) = 257 + k /\
  (forall i : nat, (1 <= i)%nat ->
     trie_get (Compress.dict cs) (repeat a i) <> 0 <-> Z.of_nat i <= k + 1).

(** A state of the loop: the stream [6, 66] has been read. *)
Definition after_first_A : Decompress.state :=
  {| Decompress.dict := Decompress.seed;
     Decompress.dict_lens := Decompress.seed_lens;
     Decompress.dict_size := 257; Decompress.dict_next := 257;
     Decompress.cw_prev := 66; Decompress.cw_enc := 66;
     Decompress.dest := ["A"%byte]; Decompress.di := 1 |}.

(** ** The cleanup of lzw_decompress *)

(** Line 174, [free(dict[i])], on the table of blocks still allocated: the
    pointer read must be that of a block (a slot inside the array, assigned
    and not yet freed); the block is then gone. *)
Definition free_slot (dict_size : Z) (dict : gmap Z (list byte)) (i : Z)
    : outcome (gmap Z (list byte)) :=
  if (0 <=? i) && (i <? dict_size) then
    match dict !! i with
    | Some _ => Done (delete i dict)
    | None => Undefined DictUninitialised
    end
  else Undefined DictOutOfBounds.

Fixpoint free_slots (dict_size : Z) (dict : gmap Z (list byte)) (slots : list Z)
    : outcome (gmap Z (list byte)) :=
  match slots with
  | [] => Done dict
  | i :: slots' =>
      do dict' <- free_slot dict_size dict i; free_slots dict_size dict' slots'
  end.

(** Lines 172-177: the loop [for (i = 1; i < dict_next; i++) free(dict[i])];
    the result is the table of the blocks that were never freed. *)
Definition cleanup (s : Decompress.state) : outcome (gmap Z (list byte)) :=
  free_slots (Decompress.dict_size s) (Decompress.dict s)
    (map Z.of_nat (seq 1 (Z.to_nat (Decompress.dict_next s - 1)))).

(** ** Streams *)



(** What the loop of [lzw_decompress] reads without a fault, with [size]
    the slots allocated, [next] the counter, [zend] the end of the lengths
    the last [memset] cleared (0 before the first) and [prev] the codeword
    read before: a codeword below the counter must not be 0, and must follow
    a codeword that is below the counter or is one of the slots from the
    counter up to [zend], whose length is 0 (lines 133-135 then copy no
    byte); a codeword at or above the counter is taken as it is.  The three
    numbers change as in lines 149-165. *)
Fixpoint decodable_from (size next zend prev : Z) (codes : list Z) : bool :=
  match codes with
  | [] => true
  | cw :: codes' =>
      (if cw <? next then (1 <=? cw) && ((prev <? next) || (prev <? zend))
       else true)
      && (if next =? size
          then decodable_from (2 * size) (next + 1)
                 (next + next / Decompress.sizeof_uint) cw codes'
          else decodable_from size (next + 1) zend cw codes')
  end.

Definition decodable (src : list Z) : bool :=
  match src with
  | _ :: cw :: codes =>
      (1 <=? cw) && (cw <=? 256) && decodable_from 257 257 0 cw codes
  | _ => false
  end.

(** The entries of the table: none is empty, the entry of slot c is at most
    c - 255 bytes long, and each entry above 256 is one byte, alone or after
    the entry of a lower slot. *)
Definition entries_ok (s : Decompress.state) : Prop :=
  forall c e, Decompress.dict s !! c = Some e ->
    1 <= Z.of_nat (length e) <= Z.max 1 (c - 255) /\
    (257 <= c -> exists p b,
       e = p ++ [b] /\
       (p = [] \/ exists j, 1 <= j < c /\ Decompress.dict s !! j = Some p)).

(** * Properties *)

(** ** Outcomes, bytes *)

Lemma bind_Done {A B : Type} (m : outcome A) (k : A -> outcome B) (b : B) :
  bind m k = Done b -> exists a, m = Done a /\ k a = Done b.
Proof. destruct m as [a|f]; simpl; [eauto | discriminate]. Qed.

Lemma u32_small (z : Z) : 0 <= z < 2 ^ 32 -> u32 z = z.
Proof. intros H. unfold u32. apply Z.mod_small. exact H. Qed.

Lemma u32_range (z : Z) : 0 <= u32 z < 2 ^ 32.
Proof. unfold u32. apply Z.mod_pos_bound. lia. Qed.

Lemma char_to_Z_range (b : byte) : 0 <= char_to_Z b <= 255.
Proof.
  unfold char_to_Z. pose proof (Byte.to_N_bounded b) as H. lia.
Qed.

Lemma Z_to_char_to_Z (b : byte) : Z_to_char (char_to_Z b) = b.
Proof.
  unfold Z_to_char. pose proof (char_to_Z_range b) as H.
  rewrite Z.mod_small by lia. unfold char_to_Z.
  rewrite N2Z.id, Byte.of_to_N. reflexivity.
Qed.

Lemma char_to_Z_to_char (z : Z) : 0 <= z < 256 -> char_to_Z (Z_to_char z) = z.
Proof.
  intros H. unfold Z_to_char, char_to_Z. rewrite Z.mod_small by lia.
  destruct (Byte.of_N (Z.to_N z)) as [b|] eqn:E.
  - apply Byte.to_of_N in E. rewrite E. lia.
  - apply Byte.of_N_None_iff in E. lia.
Qed.

Lemma char_to_Z_inj (a b : byte) : char_to_Z a = char_to_Z b -> a = b.
Proof.
  intros H. rewrite <- (Z_to_char_to_Z a), <- (Z_to_char_to_Z b), H. reflexivity.
Qed.

(** ** The trie *)

Lemma byte_eqb_eq (a b : byte) : Byte.eqb a b = true <-> a = b.
Proof. split; [apply Byte.byte_dec_bl | apply Byte.byte_dec_lb]. Qed.

Lemma byte_eqb_neq (a b : byte) : Byte.eqb a b = false <-> a <> b.
Proof.
  split.
  - apply Byte.eqb_false.
  - intros H. destruct (Byte.eqb a b) eqn:E; [|reflexivity].
    apply byte_eqb_eq in E. contradiction.
Qed.

Lemma node_get_empty (w : list byte) : node_get w empty_node = 0.
Proof. destruct w; reflexivity. Qed.

Lemma child_find_update (b b' : byte) (f : TrieNode -> TrieNode)
    (ch : list (byte * TrieNode)) :
  child_find b' (child_update b f ch) =
  if Byte.eqb b b'
  then Some (f (match child_find b ch with Some m => m | None => empty_node end))
  else child_find b' ch.
Proof.
  induction ch as [|[k n] ch IH]; simpl.
  - destruct (Byte.eqb b b'); reflexivity.
  - destruct (Byte.eqb k b) eqn:Ekb; simpl.
    + apply byte_eqb_eq in Ekb. subst k.
      destruct (Byte.eqb b b'); reflexivity.
    + destruct (Byte.eqb k b') eqn:Ekb'.
      * apply byte_eqb_eq in Ekb'. subst k. apply byte_eqb_neq in Ekb.
        destruct (Byte.eqb b b') eqn:E; [|reflexivity].
        apply byte_eqb_eq in E. congruence.
      * exact IH.
Qed.

Lemma node_get_put_same (w : list byte) (c : Z) (n : TrieNode) :
  node_get w (node_put w c n) = if node_get w n =? 0 then c else node_get w n.
Proof.
  revert n. induction w as [|b w IH]; intros n; simpl.
  - reflexivity.
  - rewrite child_find_update.
    rewrite (proj2 (byte_eqb_eq b b) eq_refl), IH.
    destruct (child_find b (node_children n)); [reflexivity|].
    rewrite node_get_empty. reflexivity.
Qed.

Lemma node_get_put_other (w w' : list byte) (c : Z) (n : TrieNode) :
  w' <> w -> node_get w' (node_put w c n) = node_get w' n.
Proof.
  revert w' n. induction w as [|b w IH]; intros [|b' w'] n Hne; simpl;
    try reflexivity; try congruence.
  rewrite child_find_update.
  destruct (Byte.eqb b b') eqn:E.
  - apply byte_eqb_eq in E. subst b'.
    rewrite IH by congruence.
    destruct (child_find b (node_children n)); [reflexivity|].
    apply node_get_empty.
  - reflexivity.
Qed.

Lemma trie_get_put_same (t : Trie) (w : list byte) :
  trie_get t w = 0 -> trie_get (trie_put t w) w = next t.
Proof.
  unfold trie_get, trie_put. intros H. rewrite H. simpl.
  rewrite node_get_put_same, H. reflexivity.
Qed.

Lemma trie_get_put_other (t : Trie) (w w' : list byte) :
  w' <> w -> trie_get (trie_put t w) w' = trie_get t w'.
Proof.
  unfold trie_get, trie_put. intros H.
  destruct (node_get w (root t) =? 0); [|reflexivity].
  simpl. apply node_get_put_other. exact H.
Qed.

Lemma next_put (t : Trie) (w : list byte) :
  trie_get t w = 0 -> next (trie_put t w) = to_codeword (next t + 1).
Proof. unfold trie_get, trie_put. intros H. rewrite H. reflexivity. Qed.

(** The seeded trie: byte [b] has codeword [b + 1], nothing else is present. *)
Lemma seed_next : next Compress.seed = 257.
Proof. vm_compute. reflexivity. Qed.

Lemma seed_get (w : list byte) :
  trie_get Compress.seed w =
  match w with
  | [b] => char_to_Z b + 1
  | _ => 0
  end.
Proof.
  destruct w as [|b [|b' w]].
  - vm_compute. reflexivity.
  - destruct b; vm_compute; reflexivity.
  - destruct b; vm_compute; reflexivity.
Qed.

(** ** The table of the decompressor *)

Lemma fold_insert_lookup {A : Type} (f : Z -> A) (l : list Z)
    (d : gmap Z A) (k : Z) :
  fold_left (fun d c => <[c := f c]> d) l d !! k =
  if decide (k ∈ l) then Some (f k) else d !! k.
Proof.
  revert d. induction l as [|a l IH]; intros d.
  - cbn [fold_left]. case_decide as H; [|reflexivity].
    apply elem_of_nil in H. contradiction.
  - cbn [fold_left]. rewrite IH.
    destruct (decide (k ∈ l)) as [Hin|Hin].
    + rewrite decide_True by (right; exact Hin). reflexivity.
    + destruct (decide (k = a)) as [->|Hne].
      * rewrite decide_True by left. apply lookup_insert_eq.
      * rewrite decide_False.
        -- apply lookup_insert_ne. congruence.
        -- intros H. apply elem_of_cons in H. tauto.
Qed.

Lemma seed_keys (k : Z) : k ∈ map Z.of_nat (seq 1 256) <-> 1 <= k <= 256.
Proof.
  rewrite list_elem_of_In, in_map_iff. split.
  - intros (n & <- & Hn). apply in_seq in Hn. lia.
  - intros H. exists (Z.to_nat k). split; [lia|]. apply in_seq. lia.
Qed.

Lemma seed_lookup (c : Z) :
  Decompress.seed !! c =
  if decide (1 <= c <= 256) then Some [Z_to_char (c - 1)] else None.
Proof.
  unfold Decompress.seed.
  rewrite (fold_insert_lookup (fun c => [Z_to_char (c - 1)])).
  destruct (decide (1 <= c <= 256)) as [H|H].
  - rewrite decide_True by (apply seed_keys; exact H). reflexivity.
  - rewrite decide_False by (rewrite seed_keys; exact H). apply lookup_empty.
Qed.

Lemma seed_lens_lookup (c : Z) :
  Decompress.seed_lens !! c =
  if decide (1 <= c <= 256) then Some 1 else None.
Proof.
  unfold Decompress.seed_lens.
  rewrite (fold_insert_lookup (fun _ => 1)).
  destruct (decide (1 <= c <= 256)) as [H|H].
  - rewrite decide_True by (apply seed_keys; exact H). reflexivity.
  - rewrite decide_False by (rewrite seed_keys; exact H). apply lookup_empty.
Qed.

Lemma memset_lens_lookup (lens : gmap Z Z) (from count k : Z) :
  Decompress.memset_lens lens from count !! k =
  if decide (from <= k < from + count / Decompress.sizeof_uint)
  then Some 0 else lens !! k.
Proof.
  unfold Decompress.memset_lens.
  rewrite (fold_insert_lookup (fun _ => 0)).
  set (n := count / Decompress.sizeof_uint).
  assert (Hin : k ∈ map (fun i => from + Z.of_nat i) (seq 0 (Z.to_nat n))
                <-> from <= k < from + n).
  { rewrite list_elem_of_In, in_map_iff. split.
    - intros (i & <- & Hi). apply in_seq in Hi. lia.
    - intros H. exists (Z.to_nat (k - from)). split; [lia|]. apply in_seq. lia. }
  destruct (decide (from <= k < from + n)) as [H|H].
  - rewrite decide_True by (apply Hin; exact H). reflexivity.
  - rewrite decide_False by (rewrite Hin; exact H). reflexivity.
Qed.

Ltac blia :=
  change (2 ^ 32) with 4294967296 in *;
  change (2 ^ 31) with 2147483648 in *;
  unfold BUF_SIZE in *; lia.

Ltac dproj :=
  cbn [Decompress.dict Decompress.dict_lens Decompress.dict_size Decompress.dict_next
       Decompress.cw_prev Decompress.cw_enc Decompress.dest Decompress.di
       fst snd bind] in *.

Ltac inv_bind H :=
  repeat match type of H with
  | bind _ _ = Done _ =>
      let a := fresh "a" in
      let Ha := fresh "Ha" in
      apply bind_Done in H; destruct H as (a & Ha & H)
  end.

(** What a read of the table gives: the block of the slot, with the length
    kept for it, or nothing from a slot whose length is 0. *)
Lemma dict_read_Done (s : Decompress.state) (k : Z) (e : list byte) :
  Decompress.dict_read s k = Done e ->
  0 <= k < Decompress.dict_size s /\
  (Decompress.dict s !! k = Some e /\
   Decompress.dict_lens s !! k = Some (Z.of_nat (length e)) \/
   e = [] /\ Decompress.dict_lens s !! k = Some 0).
Proof.
  unfold Decompress.dict_read.
  destruct (0 <=? k) eqn:E1; destruct (k <? Decompress.dict_size s) eqn:E2;
    cbn [andb]; try discriminate.
  intros H. split; [lia|].
  destruct (Decompress.dict_lens s !! k) as [n|]; [|discriminate H].
  destruct (n =? 0) eqn:En.
  - apply Z.eqb_eq in En. subst n. injection H as <-. right. split; reflexivity.
  - destruct (Decompress.dict s !! k) as [e'|]; [|discriminate H].
    destruct (n =? Z.of_nat (length e')) eqn:El; [|discriminate H].
    apply Z.eqb_eq in El. subst n. injection H as <-. left. split; reflexivity.
Qed.

(** A read that gives a byte gives the block of the slot. *)
Lemma dict_read_block (s : Decompress.state) (k : Z) (e : list byte) :
  Decompress.dict_read s k = Done e ->
  e <> [] ->
  0 <= k < Decompress.dict_size s /\ Decompress.dict s !! k = Some e.
Proof.
  intros H Hne. apply dict_read_Done in H as (Hk & [(He & _)|(-> & _)]).
  - split; assumption.
  - congruence.
Qed.

(** The read of a slot that holds a block, with its length. *)
Lemma dict_read_Some (s : Decompress.state) (k : Z) (e : list byte) :
  0 <= k < Decompress.dict_size s ->
  Decompress.dict s !! k = Some e ->
  Decompress.dict_lens s !! k = Some (Z.of_nat (length e)) ->
  Decompress.dict_read s k = Done e.
Proof.
  intros Hk He Hl. unfold Decompress.dict_read.
  rewrite (proj2 (Z.leb_le _ _) (proj1 Hk)), (proj2 (Z.ltb_lt _ _) (proj2 Hk)).
  cbn [andb]. rewrite Hl.
  destruct (Z.eqb_spec (Z.of_nat (length e)) 0) as [E|E].
  - destruct e; [reflexivity | discriminate E].
  - rewrite He, Z.eqb_refl. reflexivity.
Qed.

Lemma emit_Done (cap : Z) (s s' : Decompress.state) (e : list byte) :
  Decompress.emit cap s e = Done s' <->
  Decompress.di s + Z.of_nat (length e) <= cap /\
  s' = {| Decompress.dict := Decompress.dict s;
          Decompress.dict_lens := Decompress.dict_lens s;
          Decompress.dict_size := Decompress.dict_size s;
          Decompress.dict_next := Decompress.dict_next s;
          Decompress.cw_prev := Decompress.cw_prev s;
          Decompress.cw_enc := Decompress.cw_enc s;
          Decompress.dest := Decompress.dest s ++ e;
          Decompress.di := Decompress.di s + Z.of_nat (length e) |}.
Proof.
  unfold Decompress.emit.
  destruct (Decompress.di s + Z.of_nat (length e) <=? cap) eqn:E; split.
  - intros [= <-]. split; [lia | reflexivity].
  - intros [_ ->]. reflexivity.
  - discriminate.
  - intros [H _]. lia.
Qed.

Lemma extend_Done (p sub : list byte) (c : byte) :
  Decompress.extend p c = Done sub <->
  Z.of_nat (length p) < BUF_SIZE /\ sub = p ++ [c].
Proof.
  unfold Decompress.extend.
  destruct (Z.of_nat (length p) <? BUF_SIZE) eqn:E; split.
  - intros [= <-]. split; [lia | reflexivity].
  - intros [_ ->]. reflexivity.
  - discriminate.
  - intros [H _]. lia.
Qed.

Lemma first_byte_Done (e : list byte) (c : byte) :
  Decompress.first_byte e = Done c <-> head e = Some c.
Proof. destruct e; simpl; split; congruence. Qed.

(** The branch taken for a codeword below the counter. *)
Lemma translate_known (cap cw : Z) (s : Decompress.state)
    (r : Decompress.state * list byte) :
  cw < Decompress.dict_next s ->
  Decompress.translate cap cw s = Done r ->
  exists e c p,
    Decompress.dict_read s cw = Done e /\ head e = Some c /\
    Decompress.dict_read s (Decompress.cw_prev s) = Done p /\
    Z.of_nat (length p) < BUF_SIZE /\
    Decompress.di s + Z.of_nat (length e) <= cap /\
    r = ({| Decompress.dict := Decompress.dict s;
            Decompress.dict_lens := Decompress.dict_lens s;
            Decompress.dict_size := Decompress.dict_size s;
            Decompress.dict_next := Decompress.dict_next s;
            Decompress.cw_prev := Decompress.cw_prev s;
            Decompress.cw_enc := cw;
            Decompress.dest := Decompress.dest s ++ e;
            Decompress.di := Decompress.di s + Z.of_nat (length e) |},
         p ++ [c]).
Proof.
  intros Hlt H. unfold Decompress.translate in H.
  rewrite (proj2 (Z.ltb_lt _ _) Hlt) in H.
  inv_bind H. injection H as <-.
  apply emit_Done in Ha0 as [Hcap ->]. apply first_byte_Done in Ha1.
  apply extend_Done in Ha3 as [Hlen ->]. simpl.
  exists a, a1, a2. repeat split; assumption.
Qed.

(** The branch taken for a codeword at or above the counter. *)
Lemma translate_unknown (cap cw : Z) (s : Decompress.state)
    (r : Decompress.state * list byte) :
  Decompress.dict_next s <= cw ->
  Decompress.translate cap cw s = Done r ->
  exists p c,
    Decompress.dict_read s (Decompress.cw_enc s) = Done p /\ head p = Some c /\
    Z.of_nat (length p) < BUF_SIZE /\
    Decompress.di s + Z.of_nat (length (p ++ [c])) <= cap /\
    r = ({| Decompress.dict := Decompress.dict s;
            Decompress.dict_lens := Decompress.dict_lens s;
            Decompress.dict_size := Decompress.dict_size s;
            Decompress.dict_next := Decompress.dict_next s;
            Decompress.cw_prev := Decompress.cw_prev s;
            Decompress.cw_enc := Decompress.dict_next s;
            Decompress.dest := Decompress.dest s ++ (p ++ [c]);
            Decompress.di := Decompress.di s + Z.of_nat (length (p ++ [c])) |},
         p ++ [c]).
Proof.
  intros Hge H. unfold Decompress.translate in H.
  rewrite (proj2 (Z.ltb_ge _ _) Hge) in H.
  inv_bind H. injection H as <-.
  apply first_byte_Done in Ha0. apply extend_Done in Ha1 as [Hlen ->].
  apply emit_Done in Ha2 as [Hcap ->]. simpl.
  exists a, a0. repeat split; assumption.
Qed.

(** Whatever the branch, [translate] leaves the table and [cw_prev] alone
    and only adds to the output. *)
Lemma translate_frame (cap cw : Z) (s s1 : Decompress.state) (sub : list byte) :
  Decompress.translate cap cw s = Done (s1, sub) ->
  Decompress.dict s1 = Decompress.dict s /\
  Decompress.dict_size s1 = Decompress.dict_size s /\
  Decompress.dict_next s1 = Decompress.dict_next s /\
  Decompress.cw_prev s1 = Decompress.cw_prev s /\
  exists out, Decompress.dest s1 = Decompress.dest s ++ out /\
              Decompress.di s1 = Decompress.di s + Z.of_nat (length out).
Proof.
  intros H. destruct (Z.lt_ge_cases cw (Decompress.dict_next s)) as [Hlt|Hge].
  - apply translate_known in H as (e & c & p & _ & _ & _ & _ & _ & [= -> ->]);
      [|exact Hlt].
    simpl. repeat split; try reflexivity. exists e. split; reflexivity.
  - apply translate_unknown in H as (p & c & _ & _ & _ & _ & [= -> ->]);
      [|exact Hge].
    simpl. repeat split; try reflexivity. exists (p ++ [c]). split; reflexivity.
Qed.

Lemma translate_lens (cap cw : Z) (s s1 : Decompress.state) (sub : list byte) :
  Decompress.translate cap cw s = Done (s1, sub) ->
  Decompress.dict_lens s1 = Decompress.dict_lens s.
Proof.
  intros H. destruct (Z.lt_ge_cases cw (Decompress.dict_next s)) as [Hlt|Hge].
  - apply translate_known in H as (e & c & p & _ & _ & _ & _ & _ & [= -> ->]);
      [|exact Hlt].
    reflexivity.
  - apply translate_unknown in H as (p & c & _ & _ & _ & _ & [= -> ->]);
      [|exact Hge].
    reflexivity.
Qed.

Lemma append_Done (cw : Z) (s s' : Decompress.state) (sub : list byte) :
  Decompress.append cw s sub = Done s' ->
  Decompress.dict_size s < 2 ^ 32 ->
  Decompress.dict_next s <= Decompress.dict_size s ->
  0 <= Decompress.dict_next s < Decompress.dict_size s' /\
  Decompress.dict_size s' < 2 ^ 32 /\
  s' = {| Decompress.dict := <[Decompress.dict_next s := sub]> (Decompress.dict s);
          Decompress.dict_lens := Decompress.dict_lens s';
          Decompress.dict_size := Decompress.dict_size s';
          Decompress.dict_next := Decompress.dict_next s + 1;
          Decompress.cw_prev := cw;
          Decompress.cw_enc := Decompress.cw_enc s;
          Decompress.dest := Decompress.dest s;
          Decompress.di := Decompress.di s |}.
Proof.
  unfold Decompress.append. intros H Hsz Hle.
  set (sz := if Decompress.dict_next s =? Decompress.dict_size s
             then u32 (Decompress.dict_size s * 2) else Decompress.dict_size s) in *.
  assert (Hsz' : sz < 2 ^ 32).
  { subst sz. destruct (_ =? _); [apply u32_range | exact Hsz]. }
  destruct ((0 <=? Decompress.dict_next s) && (Decompress.dict_next s <? sz)) eqn:E;
    [|discriminate].
  apply andb_true_iff in E as [E1 E2].
  apply Z.leb_le in E1. apply Z.ltb_lt in E2.
  injection H as <-. dproj.
  rewrite (u32_small (Decompress.dict_next s + 1)) by lia.
  split; [lia|]. split; [lia | reflexivity].
Qed.

(** The size of the table after [append]: twice the old one when the table
    was full (the product does not wrap when [append] returns). *)
Lemma append_size (cw : Z) (s s' : Decompress.state) (sub : list byte) :
  Decompress.append cw s sub = Done s' ->
  Decompress.dict_size s < 2 ^ 32 ->
  257 <= Decompress.dict_next s <= Decompress.dict_size s ->
  Decompress.dict_size s' =
  if Decompress.dict_next s =? Decompress.dict_size s
  then 2 * Decompress.dict_size s else Decompress.dict_size s.
Proof.
  unfold Decompress.append. intros H Hsz Hn.
  destruct (Z.eqb_spec (Decompress.dict_next s) (Decompress.dict_size s)) as [E|E].
  - destruct (_ && _) eqn:C; [|discriminate H]. injection H as <-. dproj.
    apply andb_true_iff in C as (_ & C). apply Z.ltb_lt in C.
    destruct (Z.lt_ge_cases (Decompress.dict_size s * 2) (2 ^ 32)) as [Hs|Hb].
    + rewrite u32_small by lia. lia.
    + exfalso. unfold u32 in C.
      replace (Decompress.dict_size s * 2)
        with (Decompress.dict_size s * 2 - 2 ^ 32 + 1 * 2 ^ 32) in C by lia.
      rewrite Z.mod_add, Z.mod_small in C by blia. blia.
  - destruct (_ && _); [|discriminate H]. injection H as <-. reflexivity.
Qed.

(** The lengths after [append]: when the table was full, [dict_next] bytes
    of them were cleared from slot [dict_next] on. *)
Lemma append_lens (cw : Z) (s s' : Decompress.state) (sub : list byte) :
  Decompress.append cw s sub = Done s' ->
  Decompress.dict_size s < 2 ^ 32 ->
  257 <= Decompress.dict_next s <= Decompress.dict_size s ->
  Decompress.dict_lens s' = lens_after s sub.
Proof.
  intros H Hsz Hn. pose proof (append_size _ _ _ _ H Hsz Hn) as Es.
  unfold Decompress.append in H. unfold lens_after.
  destruct (_ && _); [|discriminate H]. injection H as <-. dproj.
  destruct (Z.eqb_spec (Decompress.dict_next s) (Decompress.dict_size s)) as [E|E];
    [|reflexivity].
  rewrite Es, E.
  replace (2 * Decompress.dict_size s - Decompress.dict_size s)
    with (Decompress.dict_size s) by lia.
  rewrite (u32_small (Decompress.dict_size s)) by blia. reflexivity.
Qed.


Lemma step_table (cap cw : Z) (s s' : Decompress.state) :
  table_ok s ->
  Decompress.step cap s cw = Done s' ->
  table_ok s' /\
  Decompress.dict_next s' = Decompress.dict_next s + 1 /\
  (exists e, Decompress.dict s' = <[Decompress.dict_next s := e]> (Decompress.dict s)) /\
  Decompress.cw_prev s' = cw.
Proof.
  intros (Hnext & Hsize & Hdom & Hseed) H. unfold Decompress.step in H.
  inv_bind H. destruct a as [s1 sub]. simpl in H.
  apply translate_frame in Ha as (Ed & Es & En & _ & _).
  apply append_Done in H as (Hlt & Hsz & ->); [|lia|lia].
  rewrite Ed, En in *. cbn [Decompress.dict_size] in Hlt, Hsz.
  split; [|simpl; eauto].
  unfold table_ok. simpl. split; [lia|]. split; [lia|]. split.
  - intros c. rewrite lookup_insert_is_Some, Hdom.
    destruct (decide (Decompress.dict_next s = c)); lia.
  - intros c Hc. rewrite lookup_insert_ne by lia. apply Hseed. exact Hc.
Qed.

Lemma loop_table (cap : Z) (codes : list Z) (s s' : Decompress.state) :
  table_ok s ->
  Decompress.loop cap codes s = Done s' ->
  table_ok s' /\
  Decompress.dict_next s' = Decompress.dict_next s + Z.of_nat (length codes).
Proof.
  revert s. induction codes as [|cw codes IH]; intros s Hs H; simpl in H.
  - injection H as <-. split; [exact Hs | simpl; lia].
  - inv_bind H. destruct (step_table _ _ _ _ Hs Ha) as (Ha' & En & _).
    destruct (IH _ Ha' H) as (Hs' & En'). split; [exact Hs'|].
    rewrite En', En. simpl length. lia.
Qed.

Lemma loop_app (cap : Z) (l1 l2 : list Z) (s : Decompress.state) :
  Decompress.loop cap (l1 ++ l2) s =
  do s' <- Decompress.loop cap l1 s; Decompress.loop cap l2 s'.
Proof.
  revert s. induction l1 as [|cw l1 IH]; intros s; simpl; [reflexivity|].
  destruct (Decompress.step cap s cw) as [s1|f]; simpl; [apply IH | reflexivity].
Qed.

Lemma start_Done (cap cw : Z) (s : Decompress.state) :
  Decompress.start cap cw = Done s <->
  1 <= cw <= 256 /\ 1 <= cap /\
  s = {| Decompress.dict := Decompress.seed;
         Decompress.dict_lens := Decompress.seed_lens;
         Decompress.dict_size := 257; Decompress.dict_next := 257;
         Decompress.cw_prev := cw; Decompress.cw_enc := cw;
         Decompress.dest := [Z_to_char (cw - 1)]; Decompress.di := 1 |}.
Proof.
  unfold Decompress.start. split.
  - intros H. inv_bind H.
    apply dict_read_Done in Ha as [Hr Hl]. dproj.
    rewrite seed_lookup, seed_lens_lookup in Hl.
    case_decide as Hc; [|destruct Hl as [(Hl & _)|(_ & Hl)]; discriminate Hl].
    destruct Hl as [(Hl & _)|(_ & Hl)]; [|discriminate Hl].
    injection Hl as <-. apply emit_Done in H as [Hcap ->]. simpl in *.
    repeat split; lia.
  - intros (Hc & Hcap & ->).
    assert (Hr : Decompress.dict_read
              {| Decompress.dict := Decompress.seed;
                 Decompress.dict_lens := Decompress.seed_lens;
                 Decompress.dict_size := 256 + 1; Decompress.dict_next := 256 + 1;
                 Decompress.cw_prev := cw; Decompress.cw_enc := cw;
                 Decompress.dest := []; Decompress.di := 0 |} cw
              = Done [Z_to_char (cw - 1)]).
    { apply dict_read_Some; dproj.
      - lia.
      - rewrite seed_lookup, decide_True by lia. reflexivity.
      - rewrite seed_lens_lookup, decide_True by lia. reflexivity. }
    rewrite Hr. simpl. apply emit_Done. simpl. split; [lia | reflexivity].
Qed.

Lemma start_table (cap cw : Z) (s : Decompress.state) :
  Decompress.start cap cw = Done s ->
  table_ok s /\ Decompress.dict_next s = 257.
Proof.
  intros H. apply start_Done in H as (_ & _ & ->). split; [|reflexivity].
  unfold table_ok. simpl. split; [lia|]. split; [lia|]. split.
  - intros c. rewrite seed_lookup. case_decide as Hc.
    + split; [lia | eauto].
    + split; [intros [? [=]] | lia].
  - intros c Hc. rewrite seed_lookup, decide_True by lia. reflexivity.
Qed.

Lemma run_Done (src : list Z) (s : Decompress.state) :
  Decompress.run src = Done s <->
  exists n cw codes s0,
    src = n :: cw :: codes /\
    Decompress.start (u32 (n + 1)) cw = Done s0 /\
    Decompress.loop (u32 (n + 1)) codes s0 = Done s.
Proof.
  unfold Decompress.run. split.
  - intros H. destruct src as [|n [|cw codes]]; try discriminate.
    simpl in H. inv_bind H. eauto 10.
  - intros (n & cw & codes & s0 & -> & H0 & H). simpl. rewrite H0. exact H.
Qed.

Lemma run_table (src : list Z) (s : Decompress.state) :
  Decompress.run src = Done s ->
  table_ok s /\
  Decompress.dict_next s = 257 + (Z.of_nat (length src) - 2).
Proof.
  intros H. apply run_Done in H as (n & cw & codes & s0 & -> & H0 & H).
  apply start_table in H0 as (Hs0 & En0).
  destruct (loop_table _ _ _ _ Hs0 H) as (Hs & En). split; [exact Hs|].
  rewrite En, En0. simpl length. lia.
Qed.

(** The two arrays stay in agreement. *)
Lemma lens_after_ok (s : Decompress.state) (sub : list byte) (k : Z) (e : list byte) :
  table_ok s -> lens_ok s ->
  <[Decompress.dict_next s := sub]> (Decompress.dict s) !! k = Some e ->
  lens_after s sub !! k = Some (Z.of_nat (length e)).
Proof.
  intros (Hn & _ & Hdom & _) Hl He. unfold lens_after.
  destruct (decide (k = Decompress.dict_next s)) as [->|Hne].
  - rewrite lookup_insert_eq in He. rewrite lookup_insert_eq.
    injection He as <-. reflexivity.
  - rewrite lookup_insert_ne in He by congruence.
    rewrite lookup_insert_ne by congruence.
    assert (Hk : 1 <= k < Decompress.dict_next s) by (apply Hdom; eauto).
    destruct (_ =? _); [|apply Hl; exact He].
    rewrite memset_lens_lookup, decide_False by lia. apply Hl. exact He.
Qed.

Lemma start_lens (cap cw : Z) (s : Decompress.state) :
  Decompress.start cap cw = Done s -> lens_ok s /\ lens_cleared s 0.
Proof.
  intros H. apply start_Done in H as (_ & _ & ->). split.
  - intros k e. dproj. rewrite seed_lookup, seed_lens_lookup.
    case_decide as Hk; [|discriminate]. intros [= <-]. reflexivity.
  - intros k n. dproj. rewrite seed_lookup, seed_lens_lookup.
    case_decide as Hk; discriminate.
Qed.

Lemma step_lens (cap cw : Z) (s s' : Decompress.state) :
  table_ok s -> lens_ok s ->
  Decompress.step cap s cw = Done s' ->
  lens_ok s'.
Proof.
  intros Htab Hl H. pose proof Htab as (Hn & Hsz & _).
  unfold Decompress.step in H. inv_bind H. destruct a as [s1 sub].
  pose proof (translate_lens _ _ _ _ _ Ha) as El.
  apply translate_frame in Ha as (Ed & Es & En & _ & _). cbn [fst snd] in H.
  pose proof (append_lens _ _ _ _ H ltac:(rewrite Es; exact Hsz)
                ltac:(rewrite Es, En; exact Hn)) as El'.
  apply append_Done in H as (_ & _ & E); [|rewrite Es; lia | rewrite Es, En; lia].
  intros k e He. rewrite El'. rewrite E in He. dproj.
  assert (Hs1 : table_ok s1 /\ lens_ok s1).
  { unfold table_ok, lens_ok. rewrite Ed, Es, En, El. split; assumption. }
  apply lens_after_ok; [apply Hs1 | apply Hs1 | exact He].
Qed.

Lemma loop_lens (cap : Z) (codes : list Z) :
  forall s s' : Decompress.state,
  table_ok s -> lens_ok s ->
  Decompress.loop cap codes s = Done s' ->
  lens_ok s'.
Proof.
  induction codes as [|cw codes IH]; intros s s' Htab Hl H; cbn [Decompress.loop] in H.
  - injection H as <-. exact Hl.
  - inv_bind H. destruct (step_table _ _ _ _ Htab Ha) as (Htab1 & _).
    apply (IH _ _ Htab1 (step_lens _ _ _ _ Htab Hl Ha) H).
Qed.

Lemma run_lens (src : list Z) (s : Decompress.state) :
  Decompress.run src = Done s -> lens_ok s.
Proof.
  intros H. apply run_Done in H as (n & cw & codes & s0 & -> & H0 & H).
  destruct (start_table _ _ _ H0) as (Htab0 & _).
  destruct (start_lens _ _ _ H0) as (Hl0 & _).
  apply (loop_lens _ _ _ _ Htab0 Hl0 H).
Qed.

Lemma append_fits (cw : Z) (s : Decompress.state) (sub : list byte) :
  Decompress.dict_next s <= Decompress.dict_size s ->
  0 < Decompress.dict_next s < 2 ^ 31 ->
  Decompress.append cw s sub =
  Done {| Decompress.dict := <[Decompress.dict_next s := sub]> (Decompress.dict s);
          Decompress.dict_lens := lens_after s sub;
          Decompress.dict_size :=
            (if Decompress.dict_next s =? Decompress.dict_size s
             then u32 (Decompress.dict_size s * 2) else Decompress.dict_size s);
          Decompress.dict_next := Decompress.dict_next s + 1;
          Decompress.cw_prev := cw;
          Decompress.cw_enc := Decompress.cw_enc s;
          Decompress.dest := Decompress.dest s;
          Decompress.di := Decompress.di s |}.
Proof.
  intros Hle Hn. unfold Decompress.append, lens_after.
  set (sz := if Decompress.dict_next s =? Decompress.dict_size s
             then u32 (Decompress.dict_size s * 2) else Decompress.dict_size s).
  assert (Hsz : Decompress.dict_next s < sz).
  { subst sz. destruct (Z.eqb_spec (Decompress.dict_next s) (Decompress.dict_size s)) as [E|E].
    - rewrite u32_small by blia. lia.
    - lia. }
  assert (Hcount : Decompress.dict_next s = Decompress.dict_size s ->
                   u32 (sz - Decompress.dict_next s) = Decompress.dict_next s).
  { intros E. subst sz. rewrite E, Z.eqb_refl, (u32_small (_ * 2)) by blia.
    rewrite u32_small by blia. lia. }
  assert (H0 : 0 <= Decompress.dict_next s) by lia.
  rewrite (proj2 (Z.leb_le _ _) H0), (proj2 (Z.ltb_lt _ _) Hsz). cbn [andb].
  rewrite (u32_small (Decompress.dict_next s + 1)) by blia.
  destruct (Z.eqb_spec (Decompress.dict_next s) (Decompress.dict_size s)) as [E|E];
    [rewrite (Hcount E)|]; reflexivity.
Qed.

(** ** The trie of the compressor *)

Lemma seed_ok : trie_ok Compress.seed.
Proof.
  unfold trie_ok. repeat apply conj.
  - intros w. rewrite seed_next, seed_get.
    destruct w as [|b [|b' w]]; try congruence.
    pose proof (char_to_Z_range b). lia.
  - intros w1 w2. rewrite !seed_get.
    destruct w1 as [|b1 [|b1' w1]]; try congruence.
    pose proof (char_to_Z_range b1).
    destruct w2 as [|b2 [|b2' w2]]; try lia.
    intros _ H1. f_equal. apply char_to_Z_inj. lia.
  - intros w. rewrite seed_get.
    destruct w as [|b [|b' w]]; try congruence.
    intros _. unfold BUF_SIZE. simpl. lia.
  - intros b. rewrite seed_get. pose proof (char_to_Z_range b). lia.
Qed.

Lemma trie_ok_next (t : Trie) : trie_ok t -> 1 < next t.
Proof.
  intros (Hr & _ & _ & Hb). specialize (Hr [x00] (Hb x00)). lia.
Qed.

Lemma put_ok (t : Trie) (w : list byte) :
  trie_ok t ->
  trie_get t w = 0 ->
  1 <= Z.of_nat (length w) <= BUF_SIZE ->
  next t + 1 < 2 ^ 32 ->
  trie_ok (trie_put t w) /\ next (trie_put t w) = next t + 1.
Proof.
  intros Hok Hw Hlen Hn. pose proof (trie_ok_next t Hok) as Hn1.
  destruct Hok as (Hr & Hi & Hl & Hb).
  assert (En : next (trie_put t w) = next t + 1).
  { rewrite next_put by exact Hw. unfold to_codeword. apply u32_small. lia. }
  assert (Hget : forall w', trie_get (trie_put t w) w' =
                            if decide (w' = w) then next t else trie_get t w').
  { intros w'. case_decide as E.
    - subst w'. apply trie_get_put_same. exact Hw.
    - apply trie_get_put_other. exact E. }
  split; [|exact En]. unfold trie_ok. rewrite En. repeat apply conj.
  - intros w'. rewrite Hget. case_decide as E; [lia|].
    intros H'. specialize (Hr _ H'). lia.
  - intros w1 w2. rewrite !Hget.
    destruct (decide (w1 = w)) as [E1|E1]; destruct (decide (w2 = w)) as [E2|E2].
    + congruence.
    + intros _ H'. assert (H2 : trie_get t w2 <> 0) by lia.
      specialize (Hr _ H2). lia.
    + intros H1 H'. specialize (Hr _ H1). lia.
    + apply Hi.
  - intros w'. rewrite Hget. case_decide as E; [subst; intros _; exact Hlen | apply Hl].
  - intros b. rewrite Hget. case_decide as E; [lia | apply Hb].
Qed.

(** ** The scan of the compressor *)

(** From here on the two seeded dictionaries are used through [seed_get],
    [seed_next] and [seed_lookup] only. *)
(** [lzw_compress] is the instance of [AnyTrie.lzw_compress] at [Trie]. *)
Lemma any_step (s : Compress.state) (c : byte) :
  AnyTrie.step Trie trie_put trie_get (any_state s) c =
  match Compress.step s c with
  | Done s' => Done (any_state s')
  | Undefined f => Undefined f
  end.
Proof.
  unfold AnyTrie.step, Compress.step, Compress.substr_len, any_state.
  cbn [AnyTrie.dict AnyTrie.substr AnyTrie.dest AnyTrie.di].
  destruct (BUF_SIZE <=? _); [reflexivity|].
  destruct (trie_get _ _ =? 0); reflexivity.
Qed.

Lemma any_loop (src : list byte) :
  forall s : Compress.state,
  AnyTrie.loop Trie trie_put trie_get src (any_state s) =
  match Compress.loop src s with
  | Done s' => Done (any_state s')
  | Undefined f => Undefined f
  end.
Proof.
  induction src as [|c src IH]; intros s; cbn [AnyTrie.loop Compress.loop].
  - reflexivity.
  - rewrite any_step. destruct (Compress.step s c) as [s1|f]; cbn [bind].
    + apply IH.
    + reflexivity.
Qed.

Lemma any_init : AnyTrie.init Trie trie_init trie_put = any_state Compress.init.
Proof.
  unfold AnyTrie.init, any_state, Compress.init.
  cbn [Compress.dict Compress.substr Compress.dest Compress.di].
  unfold AnyTrie.seed, Compress.seed. reflexivity.
Qed.

Lemma any_lzw_compress (src : list byte) :
  AnyTrie.lzw_compress Trie trie_init trie_put trie_get src = lzw_compress src.
Proof.
  unfold AnyTrie.lzw_compress, lzw_compress.
  rewrite any_init, any_loop. destruct (Compress.loop src Compress.init) as [s|f]; reflexivity.
Qed.

#[global] Opaque Compress.seed Decompress.seed Decompress.seed_lens.

Lemma cstep_Done (s s' : Compress.state) (c : byte) :
  Compress.step s c = Done s' ->
  Compress.substr_len s < BUF_SIZE /\
  ((trie_get (Compress.dict s) (Compress.substr s ++ [c]) = 0 /\
    s' = {| Compress.dict := trie_put (Compress.dict s) (Compress.substr s ++ [c]);
            Compress.substr := [c];
            Compress.dest := Compress.dest s ++
                             [trie_get (Compress.dict s) (Compress.substr s)];
            Compress.di := u32 (Compress.di s + 1) |}) \/
   (trie_get (Compress.dict s) (Compress.substr s ++ [c]) <> 0 /\
    s' = {| Compress.dict := Compress.dict s;
            Compress.substr := Compress.substr s ++ [c];
            Compress.dest := Compress.dest s;
            Compress.di := Compress.di s |})).
Proof.
  unfold Compress.step.
  destruct (Z.leb_spec BUF_SIZE (Compress.substr_len s)) as [Hb|Hb]; [discriminate|].
  destruct (Z.eqb_spec (trie_get (Compress.dict s) (Compress.substr s ++ [c])) 0)
    as [E|E]; intros [= <-]; (split; [exact Hb|]); [left | right]; split; auto.
Qed.

(** ** The decompressor follows the compressor *)

Lemma sim_extend (cs : Compress.state) (ds : Decompress.state) (c : byte) :
  sim cs ds ->
  trie_get (Compress.dict cs) (Compress.substr cs ++ [c]) <> 0 ->
  sim {| Compress.dict := Compress.dict cs;
         Compress.substr := Compress.substr cs ++ [c];
         Compress.dest := Compress.dest cs;
         Compress.di := Compress.di cs |} ds.
Proof.
  intros [Htrie Hnext Htab Hknown Hlast Henc Hprev Hcand Hdi Hlens] Hc.
  constructor; simpl; try assumption.
  destruct (Compress.substr cs) as [|c0 s] eqn:Es; [|exact Hlast].
  destruct Htrie as (_ & _ & Hl & _). specialize (Hl _ Hcand). simpl in Hl. lia.
Qed.

(** The step of the decompressor on the codeword of the compressor's
    candidate: it writes the candidate and appends the entry the compressor
    made last. *)
Lemma sim_decode (cs : Compress.state) (ds : Decompress.state) (cap : Z) :
  sim cs ds ->
  Decompress.di ds + Z.of_nat (length (Compress.substr cs)) <= cap ->
  Decompress.dict_next ds < 2 ^ 31 ->
  exists p sz,
    Decompress.dict ds !! Decompress.cw_prev ds = Some p /\
    trie_get (Compress.dict cs) (p ++ [hd x00 (Compress.substr cs)])
      = Decompress.dict_next ds /\
    <[Decompress.dict_next ds := p ++ [hd x00 (Compress.substr cs)]]>
      (Decompress.dict ds) !! trie_get (Compress.dict cs) (Compress.substr cs)
      = Some (Compress.substr cs) /\
    Decompress.step cap ds (trie_get (Compress.dict cs) (Compress.substr cs)) =
    Done {| Decompress.dict :=
              <[Decompress.dict_next ds := p ++ [hd x00 (Compress.substr cs)]]>
                (Decompress.dict ds);
            Decompress.dict_lens :=
              lens_after ds (p ++ [hd x00 (Compress.substr cs)]);
            Decompress.dict_size := sz;
            Decompress.dict_next := Decompress.dict_next ds + 1;
            Decompress.cw_prev := trie_get (Compress.dict cs) (Compress.substr cs);
            Decompress.cw_enc := trie_get (Compress.dict cs) (Compress.substr cs);
            Decompress.dest := Decompress.dest ds ++ Compress.substr cs;
            Decompress.di := Decompress.di ds + Z.of_nat (length (Compress.substr cs)) |}.
Proof.
  intros [Htrie Hnext Htab Hknown (p & Hp & Hpne & Hlast) Henc Hprev Hcand Hdi Hlens]
    Hcap Hdn.
  destruct Htrie as (Hr & Hi & Hl & Hb).
  destruct Htab as (Hn & Hsz & Hdom & Hseed).
  remember (Compress.dict cs) as T eqn:ET.
  remember (Compress.substr cs) as s eqn:Es0.
  pose proof (Hr _ Hcand) as He. rewrite Hnext in He.
  pose proof (Hl _ Hcand) as Hslen.
  pose proof (fun w => Hi s w Hcand) as Hinj.
  pose proof (Hknown s) as Hks.
  remember (trie_get T s) as e eqn:Ee0.
  assert (Hplen : Z.of_nat (length p) < BUF_SIZE).
  { specialize (Hl (p ++ [hd x00 s])). rewrite Hlast, length_app in Hl.
    simpl in Hl. lia. }
  assert (Hrp : Decompress.dict_read ds (Decompress.cw_prev ds) = Done p).
  { apply dict_read_Some; [lia | exact Hp | apply Hlens; exact Hp]. }
  assert (Hunk : Decompress.dict_next ds <= e -> s = p ++ [hd x00 s]).
  { intros Hge. apply Hinj. rewrite Hlast. lia. }
  exists p.
  exists (if Decompress.dict_next ds =? Decompress.dict_size ds
          then u32 (Decompress.dict_size ds * 2) else Decompress.dict_size ds).
  split; [exact Hp|]. split; [exact Hlast|]. split.
  { destruct (Z.lt_ge_cases e (Decompress.dict_next ds)) as [Hlt|Hge].
    - rewrite lookup_insert_ne by lia. apply Hks. lia.
    - assert (e = Decompress.dict_next ds) as -> by lia.
      rewrite lookup_insert_eq. f_equal. symmetry. apply Hunk. lia. }
  unfold Decompress.step, Decompress.translate.
  destruct (Z.ltb_spec e (Decompress.dict_next ds)) as [Hlt|Hge].
  - (* the codeword is in the table *)
    assert (Hs : Decompress.dict ds !! e = Some s) by (apply Hks; lia).
    rewrite (dict_read_Some ds e s) by (try lia; try exact Hs; apply Hlens; exact Hs).
    cbn [bind].
    rewrite (proj2 (emit_Done cap ds _ s) (conj Hcap eq_refl)). cbn [bind].
    destruct s as [|c1 s'] eqn:Es; [simpl in Hslen; lia|].
    cbn [Decompress.first_byte bind]. rewrite Hrp. cbn [bind].
    rewrite (proj2 (extend_Done p _ c1) (conj Hplen eq_refl)).
    dproj. rewrite append_fits by (dproj; lia). dproj. reflexivity.
  - (* the codeword is the entry about to be made *)
    specialize (Hunk Hge).
    assert (Ee : e = Decompress.dict_next ds) by lia.
    rewrite Henc, Hrp. cbn [bind].
    destruct p as [|c1 p'] eqn:Ep; [congruence|].
    assert (Ehd : hd x00 s = c1) by (rewrite Hunk; reflexivity).
    cbn [Decompress.first_byte bind].
    rewrite (proj2 (extend_Done (c1 :: p') _ c1) (conj Hplen eq_refl)). cbn [bind].
    rewrite Ehd in Hunk |- *. rewrite <- Hunk.
    rewrite (proj2 (emit_Done cap ds _ s) (conj Hcap eq_refl)).
    dproj. rewrite append_fits by (dproj; lia). unfold lens_after. dproj.
    rewrite <- Ee. reflexivity.
Qed.

(** The compressor writes a codeword and makes a new entry; the
    decompressor reads the codeword and catches up. *)
Lemma sim_emit (cs : Compress.state) (ds : Decompress.state) (cap : Z) (c : byte)
    (dest' : list Z) (di' : Z) :
  sim cs ds ->
  trie_get (Compress.dict cs) (Compress.substr cs ++ [c]) = 0 ->
  Compress.substr_len cs < BUF_SIZE ->
  Decompress.di ds + Z.of_nat (length (Compress.substr cs)) <= cap ->
  Decompress.dict_next ds < 2 ^ 31 ->
  exists ds',
    Decompress.step cap ds (trie_get (Compress.dict cs) (Compress.substr cs)) = Done ds' /\
    Decompress.dest ds' = Decompress.dest ds ++ Compress.substr cs /\
    Decompress.di ds' = Decompress.di ds + Z.of_nat (length (Compress.substr cs)) /\
    Decompress.dict_next ds' = Decompress.dict_next ds + 1 /\
    sim {| Compress.dict := trie_put (Compress.dict cs) (Compress.substr cs ++ [c]);
           Compress.substr := [c]; Compress.dest := dest'; Compress.di := di' |} ds'.
Proof.
  intros Hsim Hnew Hlen Hcap Hdn.
  destruct (sim_decode cs ds cap Hsim Hcap Hdn) as (p & sz & Hp & Hlast & Hlook & Hstep).
  pose proof (step_table _ _ _ _ (sim_table _ _ Hsim) Hstep) as (Htab' & _).
  pose proof (step_lens _ _ _ _ (sim_table _ _ Hsim) (sim_lens _ _ Hsim) Hstep)
    as Hlens'.
  destruct Hsim as [Htrie Hnext Htab Hknown _ Henc Hprev Hcand Hdi Hlens].
  remember (Compress.dict cs) as T eqn:ET.
  remember (Compress.substr cs) as s eqn:Es0.
  unfold Compress.substr_len in Hlen. rewrite <- Es0 in Hlen.
  destruct Htab as (Hn & _).
  destruct (put_ok T (s ++ [c]) Htrie Hnew) as (Htrie' & Hnext').
  { rewrite length_app. simpl. lia. }
  { rewrite Hnext. blia. }
  pose proof Htrie as (Hr & Hi & Hl & Hb).
  pose proof (Hr _ Hcand) as He. rewrite Hnext in He.
  pose proof (Hl _ Hcand) as Hslen.
  eexists. split; [exact Hstep|]. dproj.
  split; [reflexivity|]. split; [reflexivity|]. split; [reflexivity|].
  constructor; cbn [Compress.dict Compress.substr]; dproj.
  - exact Htrie'.
  - rewrite Hnext', Hnext. reflexivity.
  - exact Htab'.
  - intros w Hw.
    destruct (decide (w = s ++ [c])) as [->|Hne].
    { rewrite trie_get_put_same in Hw by exact Hnew. lia. }
    rewrite trie_get_put_other in Hw |- * by exact Hne.
    destruct (Z.lt_ge_cases (trie_get T w) (Decompress.dict_next ds)) as [Hlt|Hge].
    + rewrite lookup_insert_ne by lia. apply Hknown. lia.
    + assert (Ew : trie_get T w = Decompress.dict_next ds) by lia.
      rewrite Ew, lookup_insert_eq. f_equal.
      apply Hi; [lia | congruence].
  - exists s. split; [exact Hlook|]. split.
    + intros ->. simpl in Hslen. lia.
    + simpl hd. rewrite trie_get_put_same by exact Hnew. lia.
  - reflexivity.
  - lia.
  - destruct Htrie' as (_ & _ & _ & Hb'). apply Hb'.
  - rewrite length_app, Hdi. lia.
  - exact Hlens'.
Qed.

Lemma loop_sim (cap : Z) (rest : list byte) :
  forall (cs : Compress.state) (ds : Decompress.state) (cs' : Compress.state),
  sim cs ds ->
  Compress.loop rest cs = Done cs' ->
  Decompress.di ds + Z.of_nat (length (Compress.substr cs))
    + Z.of_nat (length rest) <= cap ->
  Decompress.dict_next ds + Z.of_nat (length rest) < 2 ^ 31 ->
  exists codes ds',
    Compress.dest cs' = Compress.dest cs ++ codes /\
    Decompress.loop cap codes ds = Done ds' /\
    sim cs' ds' /\
    Decompress.dest ds' ++ Compress.substr cs'
      = Decompress.dest ds ++ Compress.substr cs ++ rest /\
    Decompress.dict_next ds' < 2 ^ 31.
Proof.
  induction rest as [|c rest IH]; intros cs ds cs' Hsim Hloop Hcap Hdn.
  - injection Hloop as <-. exists [], ds. simpl length in Hdn.
    rewrite !app_nil_r. split; [reflexivity|]. split; [reflexivity|].
    split; [exact Hsim|]. split; [reflexivity | lia].
  - simpl in Hloop. inv_bind Hloop. rename a into cs1.
    simpl length in Hcap, Hdn.
    apply cstep_Done in Ha as (Hlen & [(Hnew & ->)|(Hold & ->)]).
    + (* a codeword is written *)
      destruct (sim_emit cs ds cap c
                  (Compress.dest cs ++ [trie_get (Compress.dict cs) (Compress.substr cs)])
                  (u32 (Compress.di cs + 1)) Hsim Hnew Hlen)
        as (ds1 & Hstep & Hdest & Hdi & Hnext & Hsim1); [lia | lia |].
      destruct (IH _ ds1 _ Hsim1 Hloop) as (codes & ds' & Ec & Hl & Hsim' & Ed & Hdn').
      { cbn [Compress.substr]. simpl length. lia. }
      { lia. }
      exists (trie_get (Compress.dict cs) (Compress.substr cs) :: codes), ds'.
      cbn [Compress.dest Compress.substr] in Ec, Ed.
      split; [|split; [|split; [exact Hsim'|split; [|exact Hdn']]]].
      * rewrite Ec, <- app_assoc. reflexivity.
      * simpl. rewrite Hstep. exact Hl.
      * rewrite Ed, Hdest, <- app_assoc. reflexivity.
    + (* the candidate grows *)
      pose proof (sim_extend cs ds c Hsim Hold) as Hsim1.
      destruct (IH _ ds _ Hsim1 Hloop) as (codes & ds' & Ec & Hl & Hsim' & Ed & Hdn').
      { cbn [Compress.substr]. rewrite length_app. simpl length. lia. }
      { lia. }
      exists codes, ds'. cbn [Compress.dest Compress.substr] in Ec, Ed.
      split; [exact Ec|]. split; [exact Hl|]. split; [exact Hsim'|].
      split; [|exact Hdn']. rewrite Ed, <- app_assoc. reflexivity.
Qed.

(** The count [di] is one more than the number of codewords written. *)
Lemma cloop_count (rest : list byte) :
  forall (cs cs' : Compress.state),
  Compress.loop rest cs = Done cs' ->
  Compress.di cs = 1 + Z.of_nat (length (Compress.dest cs)) ->
  Compress.di cs + Z.of_nat (length rest) < 2 ^ 32 ->
  Compress.di cs' = 1 + Z.of_nat (length (Compress.dest cs')) /\
  Z.of_nat (length (Compress.dest cs'))
    <= Z.of_nat (length (Compress.dest cs)) + Z.of_nat (length rest).
Proof.
  induction rest as [|c rest IH]; intros cs cs' Hloop Hdi Hb.
  - injection Hloop as <-. simpl. blia.
  - simpl in Hloop. inv_bind Hloop. simpl length in Hb.
    apply cstep_Done in Ha as (_ & [(_ & ->)|(_ & ->)]).
    + destruct (IH _ _ Hloop) as (H1 & H2); cbn [Compress.di Compress.dest].
      * rewrite length_app, u32_small by blia. simpl. blia.
      * rewrite u32_small by blia. blia.
      * cbn [Compress.dest] in H2. rewrite length_app in H2.
        simpl length in H2 |- *. split; [exact H1 | lia].
    + destruct (IH _ _ Hloop) as (H1 & H2); cbn [Compress.di Compress.dest].
      * exact Hdi.
      * blia.
      * cbn [Compress.dest] in H2. simpl length. split; [exact H1 | lia].
Qed.

(** The first byte of a buffer never makes the compressor write. *)
Lemma cloop_first (c0 : byte) (rest : list byte) :
  Compress.loop (c0 :: rest) Compress.init =
  Compress.loop rest {| Compress.dict := Compress.seed; Compress.substr := [c0];
                        Compress.dest := []; Compress.di := 1 |}.
Proof.
  cbn [Compress.loop]. unfold Compress.step.
  cbn [Compress.init Compress.substr_len Compress.substr
       Compress.dict Compress.dest Compress.di length app].
  change (BUF_SIZE <=? Z.of_nat 0) with false. cbn iota.
  rewrite seed_get. pose proof (char_to_Z_range c0) as Hc.
  destruct (Z.eqb_spec (char_to_Z c0 + 1) 0) as [E|E]; [lia|]. reflexivity.
Qed.

(** The second byte always does: no two-byte string is in the seeded trie. *)
Lemma cloop_second (c0 c1 : byte) (rest : list byte) :
  Compress.loop (c0 :: c1 :: rest) Compress.init =
  Compress.loop rest {| Compress.dict := trie_put Compress.seed [c0; c1];
                        Compress.substr := [c1];
                        Compress.dest := [char_to_Z c0 + 1]; Compress.di := 2 |}.
Proof.
  rewrite cloop_first. cbn [Compress.loop]. unfold Compress.step.
  cbn [Compress.substr_len Compress.substr Compress.dict Compress.dest Compress.di
       length app].
  change (BUF_SIZE <=? Z.of_nat 1) with false. cbn iota.
  rewrite !seed_get. reflexivity.
Qed.

Lemma cloop_defined (rest : list byte) :
  forall cs : Compress.state,
  Compress.substr_len cs + Z.of_nat (length rest) <= BUF_SIZE ->
  exists cs', Compress.loop rest cs = Done cs'.
Proof.
  induction rest as [|c rest IH]; intros cs Hb; [eexists; reflexivity|].
  simpl length in Hb. cbn [Compress.loop]. unfold Compress.step.
  destruct (Z.leb_spec BUF_SIZE (Compress.substr_len cs)) as [H|H]; [lia|].
  unfold Compress.substr_len in *.
  destruct (trie_get (Compress.dict cs) (Compress.substr cs ++ [c]) =? 0);
    cbn [bind]; apply IH; cbn [Compress.substr]; rewrite ?length_app;
    simpl length; lia.
Qed.

(** After two bytes the compressor has written the codeword of the first
    and the decompressor, started on it, is one entry behind. *)
Lemma sim_start (c0 c1 : byte) (dest : list Z) (di : Z) :
  sim {| Compress.dict := trie_put Compress.seed [c0; c1];
         Compress.substr := [c1]; Compress.dest := dest; Compress.di := di |}
      {| Decompress.dict := Decompress.seed;
         Decompress.dict_lens := Decompress.seed_lens;
         Decompress.dict_size := 257; Decompress.dict_next := 257;
         Decompress.cw_prev := char_to_Z c0 + 1;
         Decompress.cw_enc := char_to_Z c0 + 1;
         Decompress.dest := [c0]; Decompress.di := 1 |}.
Proof.
  pose proof (char_to_Z_range c0) as Hc0.
  assert (Hnew : trie_get Compress.seed [c0; c1] = 0) by (rewrite seed_get; reflexivity).
  destruct (put_ok Compress.seed [c0; c1] seed_ok Hnew) as (Hok & Hnext).
  { unfold BUF_SIZE. simpl. lia. }
  { rewrite seed_next. blia. }
  rewrite seed_next in Hnext.
  assert (Hstart : Decompress.start 1 (char_to_Z c0 + 1) =
            Done {| Decompress.dict := Decompress.seed;
                    Decompress.dict_lens := Decompress.seed_lens;
                    Decompress.dict_size := 257; Decompress.dict_next := 257;
                    Decompress.cw_prev := char_to_Z c0 + 1;
                    Decompress.cw_enc := char_to_Z c0 + 1;
                    Decompress.dest := [c0]; Decompress.di := 1 |}).
  { apply start_Done. split; [lia|]. split; [lia|].
    replace (char_to_Z c0 + 1 - 1) with (char_to_Z c0) by lia.
    rewrite Z_to_char_to_Z. reflexivity. }
  constructor; cbn [Compress.dict Compress.substr]; dproj.
  - exact Hok.
  - rewrite Hnext. reflexivity.
  - apply (start_table _ _ _ Hstart).
  - intros w Hw.
    destruct (decide (w = [c0; c1])) as [->|Hne].
    { rewrite trie_get_put_same, seed_next in Hw by exact Hnew. lia. }
    rewrite trie_get_put_other in Hw |- * by exact Hne.
    rewrite seed_get in Hw |- *. destruct w as [|b [|b' w]]; try lia.
    pose proof (char_to_Z_range b). rewrite seed_lookup, decide_True by lia.
    replace (char_to_Z b + 1 - 1) with (char_to_Z b) by lia.
    rewrite Z_to_char_to_Z. reflexivity.
  - exists [c0]. split; [|split; [discriminate|]].
    + rewrite seed_lookup, decide_True by lia.
      replace (char_to_Z c0 + 1 - 1) with (char_to_Z c0) by lia.
      rewrite Z_to_char_to_Z. reflexivity.
    + simpl. rewrite trie_get_put_same by exact Hnew. apply seed_next.
  - reflexivity.
  - lia.
  - destruct Hok as (_ & _ & _ & Hb). apply Hb.
  - reflexivity.
  - apply (start_lens _ _ _ Hstart).
Qed.

(** The stream written for a buffer of two bytes or more decodes to it. *)
Lemma decompress_compress (c0 c1 : byte) (rest : list byte) (di : Z) (dest : list Z) :
  Z.of_nat (length (c0 :: c1 :: rest)) < 2 ^ 31 - 255 ->
  lzw_compress (c0 :: c1 :: rest) = Done (di, dest) ->
  lzw_decompress dest =
  Done {| str := c0 :: c1 :: rest; dlen := Z.of_nat (length (c0 :: c1 :: rest)) |}.
Proof.
  intros HN H. unfold lzw_compress in H. rewrite cloop_second in H.
  inv_bind H. rename a into cs'. injection H as _ <-.
  unfold to_codeword.
  change (S (S (length rest))) with (length (c0 :: c1 :: rest)).
  rewrite u32_small by blia.
  set (N := Z.of_nat (length (c0 :: c1 :: rest))) in *.
  assert (EN : N = 2 + Z.of_nat (length rest)) by (subst N; simpl length; lia).
  destruct (loop_sim (N + 1) rest _ _ _
              (sim_start c0 c1 [char_to_Z c0 + 1] 2) Ha)
    as (codes & ds' & Ec & Hl & Hsim' & Ed & Hdn'); dproj;
    cbn [Compress.dest Compress.substr] in *.
  { simpl length. lia. }
  { blia. }
  assert (Hdi' : Decompress.di ds' + Z.of_nat (length (Compress.substr cs')) = N).
  { rewrite (sim_di _ _ Hsim'), <- Nat2Z.inj_add, <- length_app, Ed, EN.
    simpl length. lia. }
  destruct (sim_decode cs' ds' (N + 1) Hsim') as (p & sz & _ & _ & _ & Hstep);
    [lia | exact Hdn' |].
  unfold lzw_decompress, Decompress.run.
  rewrite Ec. cbn [Decompress.src_read lookup list_lookup app bind drop].
  rewrite u32_small by blia.
  pose proof (char_to_Z_range c0) as Hc0.
  assert (Hc : 1 <= char_to_Z c0 + 1 <= 256) by lia.
  assert (HN1 : 1 <= N + 1) by lia.
  rewrite (proj2 (start_Done (N + 1) (char_to_Z c0 + 1) _)
             (conj Hc (conj HN1 eq_refl))).
  cbn [bind].
  replace (char_to_Z c0 + 1 - 1) with (char_to_Z c0) by lia.
  rewrite Z_to_char_to_Z, drop_0, loop_app, Hl. cbn [bind Decompress.loop].
  rewrite Hstep. cbn [bind]. dproj.
  rewrite Ed, Hdi'. reflexivity.
Qed.

(** ** The length codeword and the output buffer *)

Lemma step_di (cap cw : Z) (s s' : Decompress.state) :
  Decompress.step cap s cw = Done s' -> Decompress.di s <= Decompress.di s'.
Proof.
  unfold Decompress.step. intros H. inv_bind H. destruct a as [s1 sub].
  apply translate_frame in Ha as (_ & _ & _ & _ & out & _ & Hdi).
  unfold Decompress.append in H. dproj.
  destruct (_ && _); [|discriminate]. injection H as <-. dproj. lia.
Qed.

(** With another buffer size the iteration does the same or overflows. *)
Lemma step_cap (cap cap' cw : Z) (s s' : Decompress.state) :
  Decompress.step cap s cw = Done s' ->
  Decompress.step cap' s cw =
  if Decompress.di s' <=? cap' then Done s' else Undefined DestOverflow.
Proof.
  unfold Decompress.step. intros H. inv_bind H. destruct a as [s1 sub].
  assert (Hdi : Decompress.di s' = Decompress.di s1).
  { unfold Decompress.append in H. destruct (_ && _); [|discriminate].
    injection H as <-. reflexivity. }
  rewrite Hdi. clear Hdi.
  assert (Ht : Decompress.translate cap' cw s =
               if Decompress.di s1 <=? cap' then Done (s1, sub)
               else Undefined DestOverflow).
  { unfold Decompress.translate.
    destruct (Z.lt_ge_cases cw (Decompress.dict_next s)) as [Hlt|Hge].
    - apply translate_known in Ha as (e & c & p & He & Hc & Hp & Hlen & _ & [= -> ->]);
        [|exact Hlt].
      rewrite (proj2 (Z.ltb_lt _ _) Hlt), He. cbn [bind]. unfold Decompress.emit. dproj.
      destruct (_ <=? cap'); [|reflexivity]. cbn [bind].
      rewrite (proj2 (first_byte_Done e c) Hc), Hp. cbn [bind].
      rewrite (proj2 (extend_Done p _ c) (conj Hlen eq_refl)). reflexivity.
    - apply translate_unknown in Ha as (p & c & Hp & Hc & Hlen & _ & [= -> ->]);
        [|exact Hge].
      rewrite (proj2 (Z.ltb_ge _ _) Hge), Hp. cbn [bind].
      rewrite (proj2 (first_byte_Done p c) Hc). cbn [bind].
      rewrite (proj2 (extend_Done p _ c) (conj Hlen eq_refl)). cbn [bind].
      unfold Decompress.emit. dproj.
      destruct (_ <=? cap'); reflexivity. }
  rewrite Ht. destruct (_ <=? cap'); [exact H | reflexivity].
Qed.

Lemma loop_cap (cap cap' : Z) (codes : list Z) :
  forall s s' : Decompress.state,
  Decompress.loop cap codes s = Done s' ->
  Decompress.di s <= Decompress.di s' /\
  (Decompress.di s <= cap' ->
   Decompress.loop cap' codes s =
   if Decompress.di s' <=? cap' then Done s' else Undefined DestOverflow).
Proof.
  induction codes as [|cw codes IH]; intros s s' H; cbn [Decompress.loop] in *.
  - injection H as <-. split; [lia|]. intros Hle.
    rewrite (proj2 (Z.leb_le _ _) Hle). reflexivity.
  - inv_bind H. rename a into s1.
    pose proof (step_di _ _ _ _ Ha) as Hd1.
    destruct (IH _ _ H) as (Hd & Hloop). split; [lia|]. intros _.
    rewrite (step_cap cap cap' _ _ _ Ha).
    destruct (Z.leb_spec (Decompress.di s1) cap') as [Hle|Hgt]; cbn [bind].
    + apply Hloop. exact Hle.
    + destruct (Z.leb_spec (Decompress.di s') cap'); [lia | reflexivity].
Qed.

(** The loop only adds to the output. *)
Lemma loop_dest (cap : Z) (codes : list Z) :
  forall s s' : Decompress.state,
  Decompress.loop cap codes s = Done s' ->
  exists out, Decompress.dest s' = Decompress.dest s ++ out.
Proof.
  induction codes as [|cw codes IH]; intros s s' H; cbn [Decompress.loop] in H.
  - injection H as <-. exists []. rewrite app_nil_r. reflexivity.
  - inv_bind H. rename a into s1.
    destruct (IH _ _ H) as (out' & E'). rewrite E'.
    unfold Decompress.step in Ha. inv_bind Ha. destruct a as [s0 sub].
    apply translate_frame in Ha0 as (_ & _ & _ & _ & out & Ed & _).
    unfold Decompress.append in Ha. dproj.
    destruct (_ && _); [|discriminate Ha]. injection Ha as <-. dproj.
    exists (out ++ out'). rewrite Ed, app_assoc. reflexivity.
Qed.

(** The first element of the stream reaches the result only through the
    size of the output buffer. *)
Lemma decompress_cap (a b : Z) (codes : list Z) (m : decompression_meta) :
  lzw_decompress (a :: codes) = Done m ->
  lzw_decompress (b :: codes) =
  if dlen m <=? u32 (b + 1) then Done m else Undefined DestOverflow.
Proof.
  unfold lzw_decompress. intros H. inv_bind H. rename a0 into s. injection H as <-.
  apply run_Done in Ha as (n & cw & codes' & s0 & [= <- ->] & H0 & Hl).
  cbn [dlen]. unfold Decompress.run.
  cbn [Decompress.src_read lookup list_lookup bind drop]. rewrite drop_0.
  apply start_Done in H0 as (Hcw & _ & ->).
  destruct (loop_cap _ (u32 (b + 1)) _ _ _ Hl) as (Hd & Hloop). dproj.
  destruct (Z.leb_spec 1 (u32 (b + 1))) as [H1|H1].
  - rewrite (proj2 (start_Done (u32 (b + 1)) cw _) (conj Hcw (conj H1 eq_refl))).
    cbn [bind]. rewrite Hloop by (dproj; exact H1).
    destruct (_ <=? _); reflexivity.
  - destruct (Z.leb_spec (Decompress.di s) (u32 (b + 1))); [lia|].
    destruct (Decompress.start (u32 (b + 1)) cw) as [s1|f] eqn:E.
    + apply start_Done in E. lia.
    + cbn [bind]. unfold Decompress.start in E.
      rewrite (dict_read_Some _ cw [Z_to_char (cw - 1)]) in E.
      * cbn [bind] in E. unfold Decompress.emit in E. dproj.
        destruct (_ <=? _); [discriminate | injection E as <-; reflexivity].
      * dproj. lia.
      * dproj. rewrite seed_lookup, decide_True by lia. reflexivity.
      * dproj. rewrite seed_lens_lookup, decide_True by lia. reflexivity.
Qed.

Lemma run_snoc (src : list Z) (cw : Z) (s : Decompress.state) :
  Decompress.run src = Done s ->
  Decompress.run (src ++ [cw]) = Decompress.step (u32 (hd 0 src + 1)) s cw.
Proof.
  intros H. apply run_Done in H as (n & c & codes & s0 & -> & H0 & Hl).
  unfold Decompress.run. cbn [app Decompress.src_read lookup list_lookup bind drop hd].
  rewrite H0, drop_0. cbn [bind]. rewrite loop_app, Hl. cbn [bind Decompress.loop].
  destruct (Decompress.step (u32 (n + 1)) s cw); reflexivity.
Qed.

(** ** The working buffer of the compressor *)

(** One more byte of the run: the candidate grows, or it is written and the
    next longer string enters the trie, or it has filled [substr]. *)
Lemma in_run_step (a : byte) (k j : Z) (cs : Compress.state) :
  in_run a k j cs ->
  (j = BUF_SIZE /\ Compress.step cs a = Undefined SubstrOverflow) \/
  (exists cs' k' j',
     Compress.step cs a = Done cs' /\ in_run a k' j' cs' /\
     k' * (k' + 1) + 2 * j' = k * (k + 1) + 2 * j + 2).
Proof.
  intros (Hk & Hj & Hb & Hs & Hn & Ht).
  unfold Compress.step, Compress.substr_len. rewrite Hs, repeat_length.
  destruct (Z.leb_spec BUF_SIZE (Z.of_nat (Z.to_nat j))) as [Hfull|Hroom].
  { left. split; [lia | reflexivity]. }
  right.
  assert (Esnoc : repeat a (Z.to_nat j) ++ [a] = repeat a (S (Z.to_nat j))).
  { rewrite <- repeat_cons. reflexivity. }
  rewrite Esnoc.
  specialize (Ht (S (Z.to_nat j))) as Htj.
  destruct (Z.eqb_spec (trie_get (Compress.dict cs) (repeat a (S (Z.to_nat j)))) 0)
    as [Enew|Eold].
  - (* a^(j+1) is new: j = k + 1 *)
    assert (Ej : j = k + 1).
    { destruct (Z.eq_dec j (k + 1)) as [E|E]; [exact E|].
      exfalso. apply (proj2 (Htj ltac:(lia))); [lia | exact Enew]. }
    eexists _, (k + 1), 1. split; [reflexivity|]. split; [|lia].
    unfold in_run. cbn [Compress.dict Compress.substr].
    split; [lia|]. split; [lia|]. split; [lia|]. split; [reflexivity|]. split.
    + rewrite next_put by exact Enew. unfold to_codeword.
      rewrite Hn, u32_small by blia. lia.
    + intros i Hi.
      destruct (Nat.eq_dec i (S (Z.to_nat j))) as [->|Hne].
      * rewrite trie_get_put_same by exact Enew. rewrite Hn. lia.
      * rewrite trie_get_put_other.
        -- rewrite (Ht i Hi). lia.
        -- intros E. apply Hne. rewrite <- (repeat_length a i), E.
           apply repeat_length.
  - (* a^(j+1) is in the trie: j < k + 1 *)
    assert (Hlt : j < k + 1).
    { apply (proj1 (Htj ltac:(lia))) in Eold. lia. }
    eexists _, k, (j + 1). split; [reflexivity|]. split; [|lia].
    unfold in_run. cbn [Compress.dict Compress.substr].
    split; [lia|]. split; [lia|]. split; [lia|]. split.
    + f_equal. lia.
    + split; [exact Hn | exact Ht].
Qed.

Lemma in_run_loop (a : byte) (n : nat) :
  forall (k j : Z) (cs : Compress.state),
  in_run a k j cs ->
  Compress.loop (repeat a n) cs = Undefined SubstrOverflow \/
  (exists cs' k' j',
     Compress.loop (repeat a n) cs = Done cs' /\ in_run a k' j' cs' /\
     k' * (k' + 1) + 2 * j' = k * (k + 1) + 2 * j + 2 * Z.of_nat n).
Proof.
  induction n as [|n IH]; intros k j cs Hin.
  - right. exists cs, k, j. split; [reflexivity|]. split; [exact Hin | simpl; lia].
  - cbn [repeat Compress.loop].
    destruct (in_run_step a k j cs Hin) as [(_ & ->)|(cs1 & k1 & j1 & -> & Hin1 & E1)].
    + left. reflexivity.
    + cbn [bind]. destruct (IH k1 j1 cs1 Hin1) as [->|(cs' & k' & j' & -> & Hin' & E')].
      * left. reflexivity.
      * right. exists cs', k', j'. split; [reflexivity|]. split; [exact Hin'|]. lia.
Qed.

(** A run of 536887297 equal bytes fills the working buffer: every state
    the scan can be in has k (k + 1) + 2 j <= BUF_SIZE (BUF_SIZE + 1), each
    byte adds 2 to that sum, so before the run is over the candidate has
    reached [BUF_SIZE] bytes and the next byte is written past the end of
    [substr]. *)
Lemma compress_overflow (a : byte) :
  lzw_compress (repeat a (Z.to_nat 536887297)) = Undefined SubstrOverflow.
Proof.
  assert (Hn : exists n : nat,
            Z.to_nat 536887297 = S n /\ Z.of_nat n = 536887296).
  { exists (Z.to_nat 536887296). split; lia. }
  destruct Hn as (n & -> & Hn).
  unfold lzw_compress. change (repeat a (S n)) with (a :: repeat a n).
  rewrite cloop_first.
  destruct (in_run_loop a n 0 1
              {| Compress.dict := Compress.seed; Compress.substr := [a];
                 Compress.dest := []; Compress.di := 1 |})
    as [->|(cs' & k' & j' & _ & (Hk & Hj & Hb & _) & E)]; [|reflexivity|].
  - unfold in_run. cbn [Compress.dict Compress.substr].
    split; [lia|]. split; [lia|]. split; [unfold BUF_SIZE; lia|].
    split; [reflexivity|]. split; [apply seed_next|].
    intros i Hi. rewrite seed_get.
    destruct i as [|[|i]]; [lia | |]; cbn [repeat].
    + pose proof (char_to_Z_range a). lia.
    + split; [congruence | lia].
  - exfalso. unfold BUF_SIZE in Hb. nia.
Qed.

(** ** Buffers of no byte and of one byte *)

Lemma compress_nil : lzw_compress [] = Done (2, [0; 0]).
Proof. vm_compute. reflexivity. Qed.

Lemma decompress_of_nil : lzw_decompress [0; 0] = Undefined DictUninitialised.
Proof. vm_compute. reflexivity. Qed.

Lemma compress_one (x : byte) :
  lzw_compress [x] = Done (2, [1; char_to_Z x + 1]).
Proof.
  unfold lzw_compress. rewrite cloop_first.
  cbn [Compress.loop bind Compress.dest Compress.dict Compress.substr
       Compress.di app length].
  rewrite seed_get. reflexivity.
Qed.

(** The scenario of 300 bytes "a": 24 content codewords for the strings
    a, aa, ..., a^24, the table growing past its first 257 slots. *)
Lemma compress_300_a :
  lzw_compress (repeat "a"%byte 300) =
  Done (25, 300 :: 98 :: map Z.of_nat (seq 257 23)) /\
  lzw_decompress (300 :: 98 :: map Z.of_nat (seq 257 23)) =
  Done {| str := repeat "a"%byte 300; dlen := 300 |}.
Proof. split; vm_compute; reflexivity. Qed.

(** * The properties of the design document *)

(** ** Single bytes, the empty buffer, the count *)

(** C6 (as stated, it fails): whatever the trie is, the one-byte buffer
    [0] is not compressed to the stream [1, 0]: either [trie_get] returns 0
    for the string of the byte 0 and [lzw_compress] takes it for absent
    (line 61) and writes a codeword more, or it returns another number.
    And the stream [1, 65], which the claim gives for the buffer "A", is
    the one [lzw_decompress] decodes to "@", the byte 64. *)
Lemma single_byte_zero_not_raw :
  (~ exists (T : Type) (t_init : T) (t_put : T -> list byte -> T)
            (t_get : T -> list byte -> Z),
       AnyTrie.lzw_compress T t_init t_put t_get [x00] = Done (2, [1; 0])) /\
  lzw_decompress [1; 65] = Done {| str := ["@"%byte]; dlen := 1 |}.
Proof.
  split; [|vm_compute; reflexivity].
  intros (T & t_init & t_put & t_get & H).
  unfold AnyTrie.lzw_compress in H. cbn [AnyTrie.loop] in H.
  unfold AnyTrie.step in H.
  cbn [AnyTrie.init AnyTrie.substr AnyTrie.dict AnyTrie.dest AnyTrie.di
       length app] in H.
  change (BUF_SIZE <=? Z.of_nat 0) with false in H. cbn iota in H.
  destruct (Z.eqb_spec (t_get (AnyTrie.seed T t_init t_put) [x00]) 0) as [E|E];
    cbn [bind AnyTrie.substr AnyTrie.dict AnyTrie.dest AnyTrie.di app] in H.
  - apply (f_equal (fun r => match r with Done r' => fst r' | Undefined _ => 0 end))
      in H.
    vm_compute in H. discriminate H.
  - apply (f_equal (fun r => match r with Done r' => snd r' | Undefined _ => [] end))
      in H.
    cbn [snd app] in H. injection H as H. contradiction.
Qed.

(** C6 (amended): for every byte x, compressing the one-byte buffer [x]
    returns the count 2 and the stream [1, c], where c is the codeword that
    [trie_get] returns for the one-byte string x in the seeded trie,
    whenever c is not 0, the value [lzw_compress] takes for an absent
    string; and [lzw_decompress] decodes a stream [1, c] to the buffer [x]
    exactly when c is x + 1, the slot in which its table keeps the byte. *)
Theorem compress_single (T : Type) (t_init : T) (t_put : T -> list byte -> T)
    (t_get : T -> list byte -> Z) (x : byte) :
  t_get (AnyTrie.seed T t_init t_put) [x] <> 0 ->
  AnyTrie.lzw_compress T t_init t_put t_get [x] =
    Done (2, [1; t_get (AnyTrie.seed T t_init t_put) [x]]) /\
  (forall c, lzw_decompress [1; c] = Done {| str := [x]; dlen := 1 |}
             <-> c = char_to_Z x + 1).
Proof.
  intros Hc. split.
  - unfold AnyTrie.lzw_compress. cbn [AnyTrie.loop]. unfold AnyTrie.step.
    cbn [AnyTrie.init AnyTrie.substr AnyTrie.dict AnyTrie.dest AnyTrie.di
         length app].
    change (BUF_SIZE <=? Z.of_nat 0) with false. cbn iota.
    destruct (Z.eqb_spec (t_get (AnyTrie.seed T t_init t_put) [x]) 0) as [E|E];
      [contradiction|].
    cbn [bind AnyTrie.substr AnyTrie.dict AnyTrie.dest AnyTrie.di app].
    reflexivity.
  - intros c. pose proof (char_to_Z_range x) as Hx.
    unfold lzw_decompress, Decompress.run.
    cbn [Decompress.src_read lookup list_lookup bind drop].
    change (u32 (1 + 1)) with 2. split.
    + intros H. inv_bind H. inv_bind Ha. cbn [Decompress.loop] in Ha.
      injection Ha as <-. apply start_Done in Ha0 as (Hcw & _ & ->). dproj.
      injection H as Hs. rewrite <- Hs, char_to_Z_to_char by lia. lia.
    + intros ->.
      assert (H1 : 1 <= char_to_Z x + 1 <= 256) by lia.
      assert (H2 : 1 <= 2) by lia.
      rewrite (proj2 (start_Done 2 (char_to_Z x + 1) _) (conj H1 (conj H2 eq_refl))).
      cbn [bind Decompress.loop]. dproj.
      replace (char_to_Z x + 1 - 1) with (char_to_Z x) by lia.
      rewrite Z_to_char_to_Z. reflexivity.
Qed.

Lemma compress_single_example :
  AnyTrie.lzw_compress Trie trie_init trie_put trie_get ["A"%byte] =
    Done (2, [1; trie_get (AnyTrie.seed Trie trie_init trie_put) ["A"%byte]]) /\
  (forall c, lzw_decompress [1; c] = Done {| str := ["A"%byte]; dlen := 1 |}
             <-> c = char_to_Z "A"%byte + 1).
Proof.
  apply (compress_single Trie trie_init trie_put trie_get "A"%byte).
  vm_compute. discriminate.
Defined.

(** C8: on the empty buffer [lzw_compress] returns the count 2 and writes two
    codewords, the length 0 and the result 0 of looking up the empty string;
    [lzw_decompress] on the one-element stream [0] reads [src[1]] past the
    end of the stream, and on the stream written for the empty buffer it
    uses slot 0 of the table, which was never assigned. *)
Theorem empty_input :
  lzw_compress [] = Done (2, [0; 0]) /\
  lzw_decompress [0] = Undefined SrcOutOfBounds /\
  lzw_decompress [0; 0] = Undefined DictUninitialised.
Proof.
  split; [exact compress_nil|]. split; [|exact decompress_of_nil].
  vm_compute. reflexivity.
Qed.

(** C7: the count returned by [lzw_compress] is the number of codewords
    written; for the empty buffer it is 2, one more than N + 1; for every
    buffer of N >= 1 bytes it is at most N + 1. *)
Theorem compress_count (B : list byte) (di : Z) (dest : list Z) :
  Z.of_nat (length B) < 2 ^ 32 - 1 ->
  lzw_compress B = Done (di, dest) ->
  di = Z.of_nat (length dest) /\
  (B = [] -> di = 2) /\
  (B <> [] -> di <= Z.of_nat (length B) + 1).
Proof.
  intros HN H. destruct B as [|c0 rest].
  - rewrite compress_nil in H. injection H as <- <-.
    split; [reflexivity|]. split; [reflexivity | congruence].
  - unfold lzw_compress in H. rewrite cloop_first in H. inv_bind H.
    injection H as <- <-. simpl length in HN.
    destruct (cloop_count _ _ _ Ha) as (Hdi & Hle);
      cbn [Compress.di Compress.dest length]; [reflexivity | blia |].
    cbn [Compress.dest length] in Hle.
    rewrite u32_small by blia.
    cbn [length]. rewrite length_app. simpl length.
    split; [lia|]. split; [discriminate | lia].
Qed.

Lemma compress_count_example :
  4 = Z.of_nat (length [6; 66; 257; 258]) /\
  (["A"; "A"; "A"; "A"; "A"; "A"]%byte = [] -> 4 = 2) /\
  (["A"; "A"; "A"; "A"; "A"; "A"]%byte <> [] ->
   4 <= Z.of_nat (length ["A"; "A"; "A"; "A"; "A"; "A"]%byte) + 1).
Proof.
  apply (compress_count ["A"; "A"; "A"; "A"; "A"; "A"]%byte 4 [6; 66; 257; 258]).
  - vm_compute. reflexivity.
  - vm_compute. reflexivity.
Defined.

(** ** The round trip *)

Lemma decompress_single (c0 : byte) :
  lzw_decompress [1; char_to_Z c0 + 1] = Done {| str := [c0]; dlen := 1 |}.
Proof.
  pose proof (char_to_Z_range c0) as Hc0.
  unfold lzw_decompress, Decompress.run.
  cbn [Decompress.src_read lookup list_lookup bind drop].
  change (u32 (1 + 1)) with 2.
  assert (Hc : 1 <= char_to_Z c0 + 1 <= 256) by lia.
  assert (H2 : 1 <= 2) by lia.
  rewrite (proj2 (start_Done 2 (char_to_Z c0 + 1) _) (conj Hc (conj H2 eq_refl))).
  cbn [bind Decompress.loop]. dproj.
  replace (char_to_Z c0 + 1 - 1) with (char_to_Z c0) by lia.
  rewrite Z_to_char_to_Z. reflexivity.
Qed.

(** The round trip of a buffer of one byte or more. *)
Lemma decompress_compress_nonempty (B : list byte) (di : Z) (dest : list Z) :
  B <> [] ->
  Z.of_nat (length B) < 2 ^ 31 - 255 ->
  lzw_compress B = Done (di, dest) ->
  lzw_decompress dest = Done {| str := B; dlen := Z.of_nat (length B) |}.
Proof.
  intros Hne HN H. destruct B as [|c0 [|c1 rest]]; [congruence| |].
  - rewrite compress_one in H. injection H as _ <-. apply decompress_single.
  - apply (decompress_compress c0 c1 rest di dest HN H).
Qed.

(** A buffer that fits the working buffer is compressed without a fault. *)
Lemma compress_defined (B : list byte) :
  Z.of_nat (length B) <= BUF_SIZE ->
  exists di dest, lzw_compress B = Done (di, dest).
Proof.
  intros Hle. destruct (cloop_defined B Compress.init) as (cs' & Hcs').
  { unfold Compress.substr_len. cbn [Compress.init Compress.substr length]. lia. }
  unfold lzw_compress. rewrite Hcs'. cbn [bind]. eauto.
Qed.

(** C1: the round trip fails on the empty buffer: [lzw_compress] writes the
    stream [0, 0] for it and [lzw_decompress] then uses slot 0 of its table,
    which was never assigned.  It also fails on the highly repetitive buffer
    of 536887297 bytes "a", on which [lzw_compress] runs past the [BUF_SIZE]
    bytes of [substr].  For every buffer B of N >= 1 bytes, N < 2^31 - 255,
    it holds whenever [lzw_compress] returns: [lzw_decompress] of the stream
    written returns exactly B, with [dlen = N]; and [lzw_compress] does
    return when N <= BUF_SIZE. *)
Theorem roundtrip_except_empty :
  ~ roundtrip [] /\
  ~ roundtrip (repeat "a"%byte (Z.to_nat 536887297)) /\
  (forall B : list byte,
     B <> [] ->
     Z.of_nat (length B) < 2 ^ 31 - 255 ->
     (forall di dest, lzw_compress B = Done (di, dest) ->
        lzw_decompress dest = Done {| str := B; dlen := Z.of_nat (length B) |}) /\
     (Z.of_nat (length B) <= BUF_SIZE -> roundtrip B)).
Proof.
  split; [|split].
  - intros (di & dest & Hc & Hd).
    rewrite compress_nil in Hc. injection Hc as _ <-.
    rewrite decompress_of_nil in Hd. discriminate Hd.
  - intros (di & dest & Hc & Hd).
    rewrite compress_overflow in Hc. discriminate Hc.
  - intros B Hne HN. split.
    + intros di dest. apply decompress_compress_nonempty; assumption.
    + intros Hle. destruct (compress_defined B Hle) as (di & dest & Hc).
      exists di, dest. split; [exact Hc|].
      apply (decompress_compress_nonempty B di dest Hne HN Hc).
Qed.

Lemma roundtrip_tobeornot :
  roundtrip ["T"; "O"; "B"; "E"; "O"; "R"; "N"; "O"; "T"; "T"; "O"; "B";
             "E"; "O"; "R"; "T"; "O"; "B"; "E"; "O"; "R"; "N"; "O"; "T"]%byte.
Proof.
  apply (proj2 (proj2 roundtrip_except_empty)
           ["T"; "O"; "B"; "E"; "O"; "R"; "N"; "O"; "T"; "T"; "O"; "B";
            "E"; "O"; "R"; "T"; "O"; "B"; "E"; "O"; "R"; "N"; "O"; "T"]%byte).
  - discriminate.
  - vm_compute. reflexivity.
  - vm_compute. discriminate.
Defined.

(** ** The length codeword *)

(** C4: the first codeword written by [lzw_compress] for a buffer of N bytes
    is N; and [lzw_decompress] uses the first codeword of a stream for the
    size of its output buffer only: with any first codeword that gives a
    buffer at least as large the result is the same, and the output starts
    with the string of the second codeword. *)
Theorem length_codeword_first (B : list byte) :
  Z.of_nat (length B) < 2 ^ 32 ->
  (forall di dest, lzw_compress B = Done (di, dest) ->
     head dest = Some (Z.of_nat (length B))) /\
  (forall n n' codes m,
     lzw_decompress (n :: codes) = Done m ->
     u32 (n + 1) <= u32 (n' + 1) ->
     lzw_decompress (n' :: codes) = Done m) /\
  (forall n cw codes m,
     lzw_decompress (n :: cw :: codes) = Done m ->
     head (str m) = Some (Z_to_char (cw - 1))).
Proof.
  intros HN. split; [|split].
  - intros di dest H. unfold lzw_compress in H. inv_bind H. injection H as _ <-.
    unfold to_codeword. rewrite u32_small by lia. reflexivity.
  - intros n n' codes m H Hle.
    pose proof (decompress_cap n n codes m H) as Hn. rewrite H in Hn.
    rewrite (decompress_cap n n' codes m H).
    destruct (Z.leb_spec (dlen m) (u32 (n + 1))); [|discriminate Hn].
    destruct (Z.leb_spec (dlen m) (u32 (n' + 1))); [reflexivity | lia].
  - intros n cw codes m H. unfold lzw_decompress in H. inv_bind H.
    injection H as <-. cbn [str].
    apply run_Done in Ha as (n0 & cw0 & codes0 & s0 & [= <- <- <-] & H0 & Hl).
    apply start_Done in H0 as (_ & _ & ->).
    apply loop_dest in Hl as (out & ->). reflexivity.
Qed.

Lemma length_codeword_example :
  head [3; 66; 257] = Some 3 /\
  lzw_decompress [7; 66; 257] =
    Done {| str := ["A"; "A"; "A"]%byte; dlen := 3 |} /\
  head ["A"; "A"; "A"]%byte = Some (Z_to_char (66 - 1)).
Proof.
  assert (H : Z.of_nat (length ["A"; "A"; "A"]%byte) < 2 ^ 32)
    by (vm_compute; reflexivity).
  destruct (length_codeword_first ["A"; "A"; "A"]%byte H) as (H1 & H2 & H3).
  split; [|split].
  - apply (H1 3). vm_compute. reflexivity.
  - apply (H2 3 7).
    + vm_compute. reflexivity.
    + vm_compute. discriminate.
  - apply (H3 3 66 [257] {| str := ["A"; "A"; "A"]%byte; dlen := 3 |}).
    vm_compute. reflexivity.
Defined.

(** C10 (as stated, it fails): the streams [3, 66, 257] and [0, 66, 257]
    differ in their first element only.  The first is decoded to "AAA"; for
    the second the buffer allocated in line 113 has one byte, and the
    [memcpy] of line 144 writes past it. *)
Lemma length_codeword_too_small :
  lzw_decompress [3; 66; 257] =
    Done {| str := ["A"; "A"; "A"]%byte; dlen := 3 |} /\
  lzw_decompress [0; 66; 257] = Undefined DestOverflow.
Proof. split; vm_compute; reflexivity. Qed.

(** C10 (amended): two streams that differ in their first element only
    give the same result, bytes and [dlen], whenever both calls return: if
    the call on the first returns [m], the call on the second returns [m]
    as well, unless its first element gives a buffer too small for the
    [dlen m] bytes, in which case the write runs past the buffer.  [dlen]
    is computed from the content codewords and is not compared with the
    first element. *)
Theorem length_codeword_sizes_only (a b : Z) (codes : list Z)
    (m : decompression_meta) :
  lzw_decompress (a :: codes) = Done m ->
  lzw_decompress (b :: codes) =
    (if dlen m <=? u32 (b + 1) then Done m else Undefined DestOverflow) /\
  (forall m', lzw_decompress (b :: codes) = Done m' ->
     str m' = str m /\ dlen m' = dlen m).
Proof.
  intros H. pose proof (decompress_cap a b codes m H) as Hb.
  split; [exact Hb|]. intros m' H'. rewrite H' in Hb.
  destruct (dlen m <=? u32 (b + 1)); [|discriminate].
  injection Hb as ->. split; reflexivity.
Qed.

Lemma length_codeword_sizes_example :
  lzw_decompress [1000; 66; 257] =
    (if 3 <=? u32 (1000 + 1)
     then Done {| str := ["A"; "A"; "A"]%byte; dlen := 3 |}
     else Undefined DestOverflow) /\
  (forall m', lzw_decompress [1000; 66; 257] = Done m' ->
     str m' = ["A"; "A"; "A"]%byte /\ dlen m' = 3).
Proof.
  apply (length_codeword_sizes_only 3 1000 [66; 257]
           {| str := ["A"; "A"; "A"]%byte; dlen := 3 |}).
  vm_compute. reflexivity.
Defined.

(** ** The table during a run *)

(** C9: in the state of [lzw_decompress] after the loop has processed the
    stream [src], that is after k = len - 2 iterations, [dict_next] is
    257 + k, the slots assigned are exactly 1 .. dict_next - 1 and slot 0 is
    not among them; the next iteration, which is the last one of the run on
    the stream with one more codeword, stores one entry in slot [dict_next]
    and adds one to [dict_next]. *)
Theorem dict_next_invariant (src : list Z) (s : Decompress.state) :
  Decompress.run src = Done s ->
  Decompress.dict_next s = 257 + (Z.of_nat (length src) - 2) /\
  (forall c, c ∈ dom (Decompress.dict s) <-> 1 <= c < Decompress.dict_next s) /\
  (0 ∉ dom (Decompress.dict s)) /\
  (forall cw s', Decompress.run (src ++ [cw]) = Done s' ->
     Decompress.dict_next s' = Decompress.dict_next s + 1 /\
     exists e, Decompress.dict s' =
               <[Decompress.dict_next s := e]> (Decompress.dict s)).
Proof.
  intros H. destruct (run_table src s H) as (Htab & Hnext).
  pose proof Htab as (_ & _ & Hdom & _).
  split; [exact Hnext|]. split; [|split].
  - intros c. rewrite elem_of_dom. apply Hdom.
  - rewrite elem_of_dom, Hdom. lia.
  - intros cw s' H'. rewrite (run_snoc src cw s H) in H'.
    destruct (step_table _ _ _ _ Htab H') as (_ & Hn & He & _).
    split; assumption.
Qed.

Lemma dict_next_example :
  match Decompress.run [6; 66; 257; 258] with
  | Done s =>
      Decompress.dict_next s = 257 + (Z.of_nat (length [6; 66; 257; 258]) - 2) /\
      (forall c, c ∈ dom (Decompress.dict s) <-> 1 <= c < Decompress.dict_next s) /\
      (0 ∉ dom (Decompress.dict s)) /\
      (forall cw s', Decompress.run ([6; 66; 257; 258] ++ [cw]) = Done s' ->
         Decompress.dict_next s' = Decompress.dict_next s + 1 /\
         exists e, Decompress.dict s' =
                   <[Decompress.dict_next s := e]> (Decompress.dict s))
  | Undefined _ => False
  end.
Proof.
  destruct (Decompress.run [6; 66; 257; 258]) as [s|f] eqn:E.
  - apply (dict_next_invariant [6; 66; 257; 258] s E).
  - vm_compute in E. discriminate E.
Defined.

(** C3 (as stated, it fails): in the table of a run slot 65 holds the byte
    64, not 65; slot 0 holds nothing; slot 256 holds a real entry, the
    byte 255. *)
Lemma seed_slots_shifted :
  exists s, Decompress.run [1; 66] = Done s /\
    Decompress.dict s !! 65 = Some ["@"%byte] /\
    Decompress.dict s !! 65 <> Some [Z_to_char 65] /\
    Decompress.dict s !! 0 = None /\
    Decompress.dict s !! 256 = Some [xff].
Proof.
  eexists. split; [apply run_Done; exists 1, 66, []; eexists; split; [reflexivity|];
    split; [apply start_Done; split; [lia|]; split; [vm_compute; discriminate|];
      reflexivity | reflexivity]|].
  dproj. rewrite !seed_lookup. repeat split.
  vm_compute. discriminate.
Qed.

(** C3 (amended): in the table of [lzw_decompress], at every point of a
    run, each codeword c in 1 .. 256 maps to the one-byte string holding the
    byte c - 1; slot 0 is never assigned; the entries above 256 are the
    dynamic ones, assigned one per iteration in the consecutive slots
    257, 258, ... *)
Theorem table_layout (src : list Z) (s : Decompress.state) :
  Decompress.run src = Done s ->
  (forall c, 1 <= c <= 256 -> Decompress.dict s !! c = Some [Z_to_char (c - 1)]) /\
  Decompress.dict s !! 0 = None /\
  (forall c, 256 < c ->
     (is_Some (Decompress.dict s !! c) <-> c < 257 + (Z.of_nat (length src) - 2))).
Proof.
  intros H. destruct (run_table src s H) as ((_ & _ & Hdom & Hseed) & Hnext).
  split; [exact Hseed|]. split.
  - destruct (Decompress.dict s !! 0) eqn:E; [|reflexivity].
    assert (Hs : is_Some (Decompress.dict s !! 0)) by (rewrite E; eauto).
    apply Hdom in Hs. lia.
  - intros c Hc. rewrite Hdom, Hnext. lia.
Qed.

Lemma table_layout_example :
  match Decompress.run [6; 66; 257; 258] with
  | Done s =>
      (forall c, 1 <= c <= 256 ->
         Decompress.dict s !! c = Some [Z_to_char (c - 1)]) /\
      Decompress.dict s !! 0 = None /\
      (forall c, 256 < c ->
         (is_Some (Decompress.dict s !! c)
          <-> c < 257 + (Z.of_nat (length [6; 66; 257; 258]) - 2)))
  | Undefined _ => False
  end.
Proof.
  destruct (Decompress.run [6; 66; 257; 258]) as [s|f] eqn:E.
  - apply (table_layout [6; 66; 257; 258] s E).
  - vm_compute in E. discriminate E.
Defined.

(** ** Codewords that are not in the table *)

(** The second element of the stream is used unchecked as a table index:
    from 257 on it is past the 257 slots allocated. *)
Lemma second_element_past_table (n cw : Z) (codes : list Z) :
  257 <= cw ->
  lzw_decompress (n :: cw :: codes) = Undefined DictOutOfBounds.
Proof.
  intros Hcw. unfold lzw_decompress, Decompress.run.
  cbn [Decompress.src_read lookup list_lookup bind].
  unfold Decompress.start, Decompress.dict_read. dproj.
  destruct (Z.ltb_spec cw (256 + 1)) as [H|H]; [lia|].
  rewrite andb_false_r. reflexivity.
Qed.

(** C5: an iteration on a codeword that is not in the table (not below
    [dict_next]) takes the last resolved entry [dict[cw_enc]], follows it
    with its own first byte, writes that string to the output, stores the
    same string as the entry of slot [dict_next], and makes that slot the
    last resolved entry. *)
Theorem kwkwk_step (cap cw : Z) (s s' : Decompress.state) :
  Decompress.dict_next s <= cw ->
  Decompress.step cap s cw = Done s' ->
  exists p c,
    Decompress.dict s !! Decompress.cw_enc s = Some p /\
    head p = Some c /\
    Decompress.dest s' = Decompress.dest s ++ (p ++ [c]) /\
    Decompress.di s' = Decompress.di s + Z.of_nat (length (p ++ [c])) /\
    Decompress.dict s' = <[Decompress.dict_next s := p ++ [c]]> (Decompress.dict s) /\
    Decompress.cw_enc s' = Decompress.dict_next s /\
    Decompress.dict s' !! Decompress.cw_enc s' = Some (p ++ [c]).
Proof.
  intros Hge H. unfold Decompress.step in H. inv_bind H.
  apply translate_unknown in Ha as (p & c & Hp & Hc & _ & _ & ->); [|exact Hge].
  apply dict_read_block in Hp as (_ & Hp); [|intros ->; discriminate Hc].
  unfold Decompress.append in H. dproj.
  destruct (_ && _); [|discriminate H]. injection H as <-. dproj.
  exists p, c. repeat apply conj; try reflexivity; try assumption.
  apply lookup_insert_eq.
Qed.

Lemma kwkwk_example :
  match Decompress.step 7 after_first_A 257 with
  | Done s' =>
      exists p c,
        Decompress.dict after_first_A !! Decompress.cw_enc after_first_A = Some p /\
        head p = Some c /\
        Decompress.dest s' = Decompress.dest after_first_A ++ (p ++ [c]) /\
        Decompress.di s' = Decompress.di after_first_A + Z.of_nat (length (p ++ [c])) /\
        Decompress.dict s' =
          <[Decompress.dict_next after_first_A := p ++ [c]]>
            (Decompress.dict after_first_A) /\
        Decompress.cw_enc s' = Decompress.dict_next after_first_A /\
        Decompress.dict s' !! Decompress.cw_enc s' = Some (p ++ [c])
  | Undefined _ => False
  end.
Proof.
  destruct (Decompress.step 7 after_first_A 257) as [s'|f] eqn:E.
  - apply (kwkwk_step 7 257 after_first_A s'); [vm_compute; discriminate | exact E].
  - vm_compute in E. discriminate E.
Defined.

(** C2 (as stated, it fails): when the third element 1000 of the stream
    [3, 66, 1000] is read the counter is 257, and the call returns the three
    bytes "AAA" with no error. *)
Lemma skip_ahead_accepted :
  (exists s, Decompress.run [3; 66] = Done s /\ Decompress.dict_next s < 1000) /\
  lzw_decompress [3; 66; 1000] =
    Done {| str := ["A"; "A"; "A"]%byte; dlen := 3 |}.
Proof.
  split; [|vm_compute; reflexivity].
  destruct (Decompress.run [3; 66]) as [s|f] eqn:E.
  - exists s. split; [reflexivity|].
    destruct (run_table _ _ E) as (_ & ->). vm_compute. reflexivity.
  - vm_compute in E. discriminate E.
Qed.

(** C2 (amended): [lzw_decompress] has no corruption result and makes no
    check on a codeword it does not find below the counter.  An iteration
    on a codeword strictly greater than [dict_next] does what the iteration
    on the codeword equal to [dict_next] does, fault or result, and only
    [cw_prev] keeps the value read; when it returns, it has written the
    last resolved entry [dict[cw_enc]] followed by the first byte of that
    entry to the output, and stored the same string in slot [dict_next],
    which becomes the last resolved entry. *)
Theorem skip_ahead_decoded_as_next (cap cw : Z) (s : Decompress.state) :
  Decompress.dict_next s < cw ->
  Decompress.step cap s cw =
  match Decompress.step cap s (Decompress.dict_next s) with
  | Done s' =>
      Done {| Decompress.dict := Decompress.dict s';
              Decompress.dict_lens := Decompress.dict_lens s';
              Decompress.dict_size := Decompress.dict_size s';
              Decompress.dict_next := Decompress.dict_next s';
              Decompress.cw_prev := cw;
              Decompress.cw_enc := Decompress.cw_enc s';
              Decompress.dest := Decompress.dest s';
              Decompress.di := Decompress.di s' |}
  | Undefined f => Undefined f
  end /\
  forall s' : Decompress.state,
  Decompress.step cap s cw = Done s' ->
  exists p c,
    Decompress.dict s !! Decompress.cw_enc s = Some p /\
    head p = Some c /\
    Decompress.dest s' = Decompress.dest s ++ (p ++ [c]) /\
    Decompress.di s' = Decompress.di s + Z.of_nat (length (p ++ [c])) /\
    Decompress.dict s' = <[Decompress.dict_next s := p ++ [c]]> (Decompress.dict s) /\
    Decompress.dict_next s' = u32 (Decompress.dict_next s + 1) /\
    Decompress.cw_enc s' = Decompress.dict_next s /\
    Decompress.cw_prev s' = cw.
Proof.
  intros Hgt. assert (Hge : Decompress.dict_next s <= cw) by lia. split.
  - unfold Decompress.step, Decompress.translate.
    rewrite (proj2 (Z.ltb_ge _ _) Hge), Z.ltb_irrefl.
    destruct (Decompress.dict_read s (Decompress.cw_enc s)) as [p|f]; [|reflexivity].
    cbn [bind]. destruct (Decompress.first_byte p) as [c|f]; [|reflexivity].
    cbn [bind]. destruct (Decompress.extend p c) as [sub|f]; [|reflexivity].
    cbn [bind]. destruct (Decompress.emit cap s sub) as [s1|f]; [|reflexivity].
    cbn [bind]. unfold Decompress.append. dproj.
    destruct (_ && _); reflexivity.
  - intros s' H. unfold Decompress.step in H. inv_bind H.
    apply translate_unknown in Ha as (p & c & Hp & Hc & _ & _ & ->); [|exact Hge].
    apply dict_read_block in Hp as (_ & Hp); [|intros ->; discriminate Hc].
    unfold Decompress.append in H. dproj.
    destruct (_ && _); [|discriminate H]. injection H as <-. dproj.
    exists p, c. repeat apply conj; try reflexivity; assumption.
Qed.

Lemma skip_ahead_example :
  Decompress.step 7 after_first_A 1000 =
  match Decompress.step 7 after_first_A (Decompress.dict_next after_first_A) with
  | Done s' =>
      Done {| Decompress.dict := Decompress.dict s';
              Decompress.dict_lens := Decompress.dict_lens s';
              Decompress.dict_size := Decompress.dict_size s';
              Decompress.dict_next := Decompress.dict_next s';
              Decompress.cw_prev := 1000;
              Decompress.cw_enc := Decompress.cw_enc s';
              Decompress.dest := Decompress.dest s';
              Decompress.di := Decompress.di s' |}
  | Undefined f => Undefined f
  end /\
  forall s' : Decompress.state,
  Decompress.step 7 after_first_A 1000 = Done s' ->
  exists p c,
    Decompress.dict after_first_A !! Decompress.cw_enc after_first_A = Some p /\
    head p = Some c /\
    Decompress.dest s' = Decompress.dest after_first_A ++ (p ++ [c]) /\
    Decompress.di s' = Decompress.di after_first_A + Z.of_nat (length (p ++ [c])) /\
    Decompress.dict s' =
      <[Decompress.dict_next after_first_A := p ++ [c]]>
        (Decompress.dict after_first_A) /\
    Decompress.dict_next s' = u32 (Decompress.dict_next after_first_A + 1) /\
    Decompress.cw_enc s' = Decompress.dict_next after_first_A /\
    Decompress.cw_prev s' = 1000.
Proof.
  apply (skip_ahead_decoded_as_next 7 1000 after_first_A).
  vm_compute. reflexivity.
Defined.

(** * Further properties of the code *)

(** ** One iteration of the loop of lzw_decompress, read backwards *)

Lemma step_inv (cap cw : Z) (s s' : Decompress.state) :
  table_ok s ->
  Decompress.step cap s cw = Done s' ->
  exists out p b,
    Decompress.dict s' = <[Decompress.dict_next s := p ++ [b]]> (Decompress.dict s) /\
    Decompress.dict_next s' = Decompress.dict_next s + 1 /\
    Decompress.dest s' = Decompress.dest s ++ out /\
    Decompress.di s' = Decompress.di s + Z.of_nat (length out) /\
    Decompress.cw_prev s' = cw /\
    ((cw < Decompress.dict_next s /\ 1 <= cw /\
      Decompress.dict s !! cw = Some out /\ head out = Some b /\
      Decompress.cw_enc s' = cw /\
      (Decompress.dict s !! Decompress.cw_prev s = Some p \/
       p = [] /\ Decompress.dict_lens s !! Decompress.cw_prev s = Some 0)) \/
     (Decompress.dict_next s <= cw /\
      Decompress.dict s !! Decompress.cw_enc s = Some p /\
      out = p ++ [b] /\ head p = Some b /\
      Decompress.cw_enc s' = Decompress.dict_next s)).
Proof.
  intros (Hnext & Hsize & Hdom & _) H. unfold Decompress.step in H.
  inv_bind H. destruct a as [s1 sub]. cbn [fst snd] in H.
  assert (Hin : forall k e, Decompress.dict s !! k = Some e ->
                            1 <= k < Decompress.dict_next s).
  { intros k e Hk. apply Hdom. rewrite Hk. eauto. }
  destruct (Z.lt_ge_cases cw (Decompress.dict_next s)) as [Hlt|Hge].
  - apply translate_known in Ha as (e & c & p & He & Hc & Hp & _ & _ & [= -> ->]);
      [|exact Hlt].
    apply dict_read_block in He as (_ & He); [|intros ->; discriminate Hc].
    apply dict_read_Done in Hp as (_ & Hp).
    apply append_Done in H as (_ & _ & ->); dproj; [|lia|lia].
    exists e, p, c. dproj.
    do 5 (split; [reflexivity|]). left.
    split; [exact Hlt|]. split; [exact (proj1 (Hin _ _ He))|]. split; [exact He|].
    split; [exact Hc|]. split; [reflexivity|].
    destruct Hp as [(Hp & _)|Hp]; [left; exact Hp | right; exact Hp].
  - apply translate_unknown in Ha as (p & c & Hp & Hc & _ & _ & [= -> ->]);
      [|exact Hge].
    apply dict_read_block in Hp as (_ & Hp); [|intros ->; discriminate Hc].
    apply append_Done in H as (_ & _ & ->); dproj; [|lia|lia].
    exists (p ++ [c]), p, c. dproj.
    do 5 (split; [reflexivity|]). right.
    split; [exact Hge|]. split; [exact Hp|]. split; [reflexivity|].
    split; [exact Hc | reflexivity].
Qed.

(** ** The entries of the table *)

Lemma start_entries (cap cw : Z) (s : Decompress.state) :
  Decompress.start cap cw = Done s -> entries_ok s.
Proof.
  intros H. apply start_Done in H as (_ & _ & ->).
  intros c e. cbn [Decompress.dict]. rewrite seed_lookup.
  case_decide as Hc; [|discriminate]. intros [= <-].
  cbn [length]. split; [lia|]. lia.
Qed.

Lemma step_entries (cap cw : Z) (s s' : Decompress.state) :
  table_ok s -> entries_ok s ->
  Decompress.step cap s cw = Done s' ->
  entries_ok s' /\
  exists out,
    Decompress.dest s' = Decompress.dest s ++ out /\
    Decompress.di s' = Decompress.di s + Z.of_nat (length out) /\
    1 <= Z.of_nat (length out) <= Decompress.dict_next s - 255.
Proof.
  intros Htab Hent H.
  destruct (step_inv cap cw s s' Htab H)
    as (out & p & b & Ed & _ & Edest & Edi & _ & Hcase).
  pose proof Htab as (Hnext & _ & Hdom & _).
  assert (Hin : forall k e, Decompress.dict s !! k = Some e ->
                            1 <= k < Decompress.dict_next s).
  { intros k e Hk. apply Hdom. rewrite Hk. eauto. }
  assert (Hp : Z.of_nat (length p) <= Decompress.dict_next s - 256 /\
               (p = [] \/ exists j, 1 <= j < Decompress.dict_next s /\
                                    Decompress.dict s !! j = Some p)).
  { destruct Hcase as [(_ & _ & _ & _ & _ & [Hp|(-> & _)])|(_ & Hp & _)].
    - destruct (Hent _ _ Hp) as (Hlen & _). pose proof (Hin _ _ Hp).
      split; [lia|]. right. eauto.
    - cbn [length]. split; [lia|]. left. reflexivity.
    - destruct (Hent _ _ Hp) as (Hlen & _). pose proof (Hin _ _ Hp).
      split; [lia|]. right. eauto. }
  destruct Hp as (Hplen & Hpsrc).
  split.
  - intros c e. rewrite Ed.
    destruct (decide (c = Decompress.dict_next s)) as [->|Hne].
    + rewrite lookup_insert_eq. intros [= <-].
      rewrite length_app. cbn [length]. split; [lia|].
      intros _. exists p, b. split; [reflexivity|].
      destruct Hpsrc as [->|(j & Hj & Hjp)]; [left; reflexivity|].
      right. exists j. split; [lia|]. rewrite lookup_insert_ne by lia. exact Hjp.
    + rewrite lookup_insert_ne by congruence. intros He.
      pose proof (Hin _ _ He) as Hc.
      destruct (Hent c e He) as (Hlen & Hpre). split; [exact Hlen|].
      intros H257. destruct (Hpre H257) as (p' & b' & -> & Hsrc).
      exists p', b'. split; [reflexivity|].
      destruct Hsrc as [->|(j' & Hj' & Hl')]; [left; reflexivity|].
      right. exists j'. split; [exact Hj'|].
      rewrite lookup_insert_ne by lia. exact Hl'.
  - exists out. split; [exact Edest|]. split; [exact Edi|].
    destruct Hcase as [(Hlt & H1 & Hout & _)|(_ & _ & -> & _)].
    + destruct (Hent cw out Hout) as (Hlen & _). lia.
    + rewrite length_app. cbn [length]. lia.
Qed.

(** Along the loop: the output grows by at least one byte per codeword and
    by at most k + 2 bytes in iteration k. *)
Lemma loop_bounds (cap : Z) (codes : list Z) :
  forall s s' : Decompress.state,
  table_ok s -> entries_ok s ->
  Decompress.loop cap codes s = Done s' ->
  entries_ok s' /\
  Decompress.di s + Z.of_nat (length codes) <= Decompress.di s' /\
  2 * Decompress.di s'
    + (Decompress.dict_next s - 256) * (Decompress.dict_next s - 255)
  <= 2 * Decompress.di s
    + (Decompress.dict_next s' - 256) * (Decompress.dict_next s' - 255).
Proof.
  induction codes as [|cw codes IH]; intros s s' Htab Hent H;
    cbn [Decompress.loop] in H.
  - injection H as <-. cbn [length]. split; [exact Hent|]. lia.
  - inv_bind H. rename a into s1.
    destruct (step_entries _ _ _ _ Htab Hent Ha) as (Hent1 & out & _ & Edi & Hout).
    destruct (step_table _ _ _ _ Htab Ha) as (Htab1 & En1 & _).
    destruct (IH _ _ Htab1 Hent1 H) as (Hent' & Hlo & Hhi).
    split; [exact Hent'|]. cbn [length]. split; [lia|].
    rewrite En1 in Hhi. nia.
Qed.

Lemma loop_di (cap : Z) (codes : list Z) :
  forall s s' : Decompress.state,
  Decompress.loop cap codes s = Done s' ->
  Decompress.di s = Z.of_nat (length (Decompress.dest s)) ->
  Decompress.di s' = Z.of_nat (length (Decompress.dest s')).
Proof.
  induction codes as [|cw codes IH]; intros s s' H Hdi; cbn [Decompress.loop] in H.
  - injection H as <-. exact Hdi.
  - inv_bind H. apply (IH _ _ H).
    unfold Decompress.step in Ha. inv_bind Ha. destruct a0 as [s0 sub].
    apply translate_frame in Ha0 as (_ & _ & _ & _ & out & Ed & Edi).
    unfold Decompress.append in Ha. dproj.
    destruct (_ && _); [|discriminate Ha]. injection Ha as <-. dproj.
    rewrite Edi, Ed, length_app, Hdi. lia.
Qed.

(** The state at the end of a run. *)
Lemma run_bounds (src : list Z) (s : Decompress.state) :
  Decompress.run src = Done s ->
  entries_ok s /\
  Decompress.di s = Z.of_nat (length (Decompress.dest s)) /\
  Z.of_nat (length src) - 1 <= Decompress.di s /\
  2 * Decompress.di s <= (Z.of_nat (length src) - 1) * Z.of_nat (length src).
Proof.
  intros H. pose proof (run_table src s H) as (_ & En).
  apply run_Done in H as (n & cw & codes & s0 & -> & H0 & Hl).
  pose proof (start_table _ _ _ H0) as (Htab0 & En0).
  pose proof (start_entries _ _ _ H0) as Hent0.
  destruct (loop_bounds _ _ _ _ Htab0 Hent0 Hl) as (Hent & Hlo & Hhi).
  assert (Hdi : Decompress.di s = Z.of_nat (length (Decompress.dest s))).
  { apply (loop_di _ _ _ _ Hl). apply start_Done in H0 as (_ & _ & ->). reflexivity. }
  apply start_Done in H0 as (_ & _ & E0). rewrite E0 in Hlo, Hhi. dproj.
  cbn [length] in *. split; [exact Hent|]. split; [exact Hdi|].
  split; [lia|]. rewrite En in Hhi. nia.
Qed.

(** ** The cleanup *)

Lemma free_slots_all (size : Z) (k : nat) :
  forall (a : nat) (d : gmap Z (list byte)),
  (forall c, is_Some (d !! c) <-> Z.of_nat a <= c < Z.of_nat a + Z.of_nat k) ->
  Z.of_nat a + Z.of_nat k <= size ->
  free_slots size d (map Z.of_nat (seq a k)) = Done ∅.
Proof.
  induction k as [|k IH]; intros a d Hdom Hsize; cbn [seq map free_slots].
  - f_equal. apply map_empty. intros i.
    destruct (d !! i) eqn:E; [|reflexivity].
    assert (Hs : is_Some (d !! i)) by (rewrite E; eauto).
    apply Hdom in Hs. lia.
  - unfold free_slot.
    destruct (Z.leb_spec 0 (Z.of_nat a)) as [_|H0]; [|lia].
    destruct (Z.ltb_spec (Z.of_nat a) size) as [_|H1]; [|lia].
    cbn [andb].
    assert (Ha : Z.of_nat a <= Z.of_nat a < Z.of_nat a + Z.of_nat (S k)) by lia.
    destruct (proj2 (Hdom (Z.of_nat a)) Ha) as (e & ->). cbn [bind].
    apply IH; [|lia]. intros c.
    rewrite lookup_delete_is_Some, Hdom. lia.
Qed.

(** ** The lengths cleared by the memset *)

Lemma step_cleared (cap cw zend : Z) (s s' : Decompress.state) :
  table_ok s ->
  lens_cleared s zend ->
  zend <= Decompress.dict_size s ->
  Decompress.step cap s cw = Done s' ->
  let zend' := if Decompress.dict_next s =? Decompress.dict_size s
               then Decompress.dict_next s
                    + Decompress.dict_next s / Decompress.sizeof_uint
               else zend in
  lens_cleared s' zend' /\ zend' <= Decompress.dict_size s' /\
  Decompress.dict_size s' =
    (if Decompress.dict_next s =? Decompress.dict_size s
     then 2 * Decompress.dict_size s else Decompress.dict_size s).
Proof.
  intros Htab Hcl Hz H. pose proof Htab as (Hn & Hsz & _).
  destruct (step_table _ _ _ _ Htab H) as (_ & En' & _).
  unfold Decompress.step in H. inv_bind H. destruct a as [s1 sub].
  pose proof (translate_lens _ _ _ _ _ Ha) as El.
  apply translate_frame in Ha as (Ed & Es & En & _ & _). cbn [fst snd] in H.
  assert (Hsz1 : Decompress.dict_size s1 < 2 ^ 32) by (rewrite Es; exact Hsz).
  assert (Hn1 : 257 <= Decompress.dict_next s1 <= Decompress.dict_size s1)
    by (rewrite Es, En; exact Hn).
  pose proof (append_lens _ _ _ _ H Hsz1 Hn1) as El'.
  pose proof (append_size _ _ _ _ H Hsz1 Hn1) as Es'.
  apply append_Done in H as (_ & _ & E); [|lia|lia].
  unfold lens_after in El'. rewrite Es, En, El in El'. rewrite Es, En in Es'.
  assert (Ed' : Decompress.dict s' =
                <[Decompress.dict_next s := sub]> (Decompress.dict s)).
  { rewrite E. dproj. rewrite Ed, En. reflexivity. }
  cbv zeta. unfold Decompress.sizeof_uint.
  split; [|split; [|exact Es']].
  - intros k n Hk Hnone. rewrite El' in Hk. rewrite Ed' in Hnone. rewrite En'.
    destruct (decide (k = Decompress.dict_next s)) as [->|Hne].
    { rewrite lookup_insert_eq in Hnone. discriminate Hnone. }
    rewrite lookup_insert_ne in Hnone by congruence.
    rewrite lookup_insert_ne in Hk by congruence.
    destruct (Z.eqb_spec (Decompress.dict_next s) (Decompress.dict_size s)) as [Efull|Efull].
    + rewrite memset_lens_lookup in Hk. unfold Decompress.sizeof_uint in Hk.
      case_decide as Hin.
      * injection Hk as <-. split; [reflexivity | lia].
      * destruct (Hcl _ _ Hk Hnone) as (_ & Hrange). lia.
    + destruct (Hcl _ _ Hk Hnone) as (-> & Hrange). split; [reflexivity | lia].
  - destruct (Z.eqb_spec (Decompress.dict_next s) (Decompress.dict_size s)) as [Efull|Efull].
    + rewrite Es'. pose proof (Z.div_le_upper_bound (Decompress.dict_next s) 4
                                 (Decompress.dict_next s)). lia.
    + rewrite Es'. exact Hz.
Qed.

(** ** The streams the loop decodes *)

Lemma loop_decodable (cap : Z) (codes : list Z) :
  forall (s s' : Decompress.state) (zend : Z),
  table_ok s ->
  lens_cleared s zend ->
  zend <= Decompress.dict_size s ->
  Decompress.loop cap codes s = Done s' ->
  decodable_from (Decompress.dict_size s) (Decompress.dict_next s) zend
    (Decompress.cw_prev s) codes = true.
Proof.
  induction codes as [|cw codes IH]; intros s s' zend Htab Hcl Hz H;
    cbn [Decompress.loop decodable_from] in *; [reflexivity|].
  inv_bind H. rename a into s1.
  destruct (step_table _ _ _ _ Htab Ha) as (Htab1 & En1 & _ & Ep1).
  destruct (step_cleared _ _ _ _ _ Htab Hcl Hz Ha) as (Hcl1 & Hz1 & Es1).
  specialize (IH _ _ _ Htab1 Hcl1 Hz1 H). rewrite En1, Ep1, Es1 in IH.
  pose proof Htab as (_ & _ & Hdom & _).
  apply andb_true_iff. split.
  - destruct (step_inv _ _ _ _ Htab Ha)
      as (out & p & b & _ & _ & _ & _ & _ & Hcase).
    destruct Hcase as [(Hlt & H1 & _ & _ & _ & Hprev)|(Hge & _)].
    + rewrite (proj2 (Z.ltb_lt _ _) Hlt), (proj2 (Z.leb_le _ _) H1). cbn [andb].
      apply orb_true_iff.
      destruct (Decompress.dict s !! Decompress.cw_prev s) as [e|] eqn:Ee.
      * left. apply Z.ltb_lt. apply Hdom. rewrite Ee. eauto.
      * destruct Hprev as [Hp|(_ & Hp)]; [discriminate Hp|].
        right. apply Z.ltb_lt. destruct (Hcl _ _ Hp Ee) as (_ & Hr). lia.
    + rewrite (proj2 (Z.ltb_ge _ _) Hge). reflexivity.
  - destruct (Decompress.dict_next s =? Decompress.dict_size s); exact IH.
Qed.

Lemma decompress_decodable (src : list Z) (m : decompression_meta) :
  lzw_decompress src = Done m -> decodable src = true.
Proof.
  unfold lzw_decompress. intros H. inv_bind H.
  apply run_Done in Ha as (n & cw & codes & s0 & -> & H0 & Hl).
  pose proof (start_table _ _ _ H0) as (Htab0 & _).
  pose proof (start_lens _ _ _ H0) as (_ & Hcl0).
  assert (Hz0 : 0 <= Decompress.dict_size s0) by (destruct Htab0; lia).
  pose proof (loop_decodable _ _ _ _ _ Htab0 Hcl0 Hz0 Hl) as Hacc.
  apply start_Done in H0 as (Hcw & _ & ->). dproj.
  cbn [decodable]. rewrite Hacc.
  rewrite (proj2 (Z.leb_le _ _) (proj1 Hcw)), (proj2 (Z.leb_le _ _) (proj2 Hcw)).
  reflexivity.
Qed.


(** ** The streams the loop accepts *)






(** ** The growth of the table *)

Lemma step_size (cap cw : Z) (s s' : Decompress.state) :
  table_ok s ->
  Decompress.step cap s cw = Done s' ->
  Decompress.dict_size s' =
  if Decompress.dict_next s =? Decompress.dict_size s
  then 2 * Decompress.dict_size s else Decompress.dict_size s.
Proof.
  intros (Hnext & Hsize & _) H. unfold Decompress.step in H.
  inv_bind H. destruct a as [s1 sub].
  apply translate_frame in Ha as (_ & Es & En & _). cbn [fst snd] in H.
  unfold Decompress.append in H. rewrite Es, En in H.
  destruct (Z.eqb_spec (Decompress.dict_next s) (Decompress.dict_size s)) as [E|E].
  - destruct (_ && _) eqn:C; [|discriminate H]. injection H as <-. dproj.
    apply andb_true_iff in C as (_ & C). apply Z.ltb_lt in C.
    destruct (Z.lt_ge_cases (Decompress.dict_size s * 2) (2 ^ 32)) as [Hs|Hb].
    + rewrite u32_small by lia. lia.
    + exfalso. unfold u32 in C.
      replace (Decompress.dict_size s * 2)
        with (Decompress.dict_size s * 2 - 2 ^ 32 + 1 * 2 ^ 32) in C by lia.
      rewrite Z.mod_add, Z.mod_small in C by blia. blia.
  - destruct (_ && _); [|discriminate H]. injection H as <-. reflexivity.
Qed.

Lemma loop_size (cap : Z) (codes : list Z) :
  forall s s' : Decompress.state,
  table_ok s ->
  (exists j : nat, Decompress.dict_size s = 257 * 2 ^ Z.of_nat j) ->
  Decompress.dict_size s = 257 /\ Decompress.dict_next s = 257 \/
  Decompress.dict_size s <= 2 * (Decompress.dict_next s - 1) ->
  Decompress.loop cap codes s = Done s' ->
  (exists j : nat, Decompress.dict_size s' = 257 * 2 ^ Z.of_nat j) /\
  (codes = [] /\ Decompress.dict_size s' = Decompress.dict_size s \/
   Decompress.dict_size s' <= 2 * (Decompress.dict_next s' - 1)).
Proof.
  induction codes as [|cw codes IH]; intros s s' Htab Hpow Hhalf H;
    cbn [Decompress.loop] in H.
  - injection H as <-. split; [exact Hpow|]. left. split; reflexivity.
  - inv_bind H. rename a into s1.
    destruct (step_table _ _ _ _ Htab Ha) as (Htab1 & En1 & _).
    pose proof (step_size _ _ _ _ Htab Ha) as Es1.
    pose proof Htab as (Hnext & _).
    assert (Hpow1 : exists j : nat, Decompress.dict_size s1 = 257 * 2 ^ Z.of_nat j).
    { destruct Hpow as (j & Ej). rewrite Es1.
      destruct (_ =? _); [|exists j; exact Ej].
      exists (S j). rewrite Ej, Nat2Z.inj_succ, Z.pow_succ_r by lia. lia. }
    assert (Hhalf1 : Decompress.dict_size s1 <= 2 * (Decompress.dict_next s1 - 1)).
    { rewrite Es1, En1.
      destruct (Z.eqb_spec (Decompress.dict_next s) (Decompress.dict_size s)); lia. }
    destruct (IH _ _ Htab1 Hpow1 (or_intror Hhalf1) H) as (Hp' & [(-> & E)|Hh']).
    + split; [exact Hp'|]. right. cbn [Decompress.loop] in H. injection H as <-.
      exact Hhalf1.
    + split; [exact Hp'|]. right. exact Hh'.
Qed.

(** ** The count returned by lzw_compress *)

Lemma compress_di (B : list byte) (di : Z) (dest : list Z) :
  B <> [] ->
  Z.of_nat (length B) < 2 ^ 32 - 1 ->
  lzw_compress B = Done (di, dest) ->
  di = Z.of_nat (length dest).
Proof.
  intros Hne HN H. destruct B as [|c0 rest]; [congruence|].
  unfold lzw_compress in H. rewrite cloop_first in H. inv_bind H.
  rename a into cs'. injection H as <- <-. cbn [length] in HN.
  pose (cs0 := {| Compress.dict := Compress.seed; Compress.substr := [c0];
                  Compress.dest := []; Compress.di := 1 |}).
  assert (Hcount : Compress.di cs' = 1 + Z.of_nat (length (Compress.dest cs')) /\
            Z.of_nat (length (Compress.dest cs')) <= 0 + Z.of_nat (length rest)).
  { refine (cloop_count rest cs0 cs' Ha _ _); cbn [cs0 Compress.di Compress.dest length].
    - reflexivity.
    - blia. }
  destruct Hcount as (Hdi & Hle).
  rewrite u32_small by blia. cbn [length]. rewrite length_app. cbn [length]. lia.
Qed.

Lemma run_size (src : list Z) (s : Decompress.state) :
  Decompress.run src = Done s ->
  (exists j : nat, Decompress.dict_size s = 257 * 2 ^ Z.of_nat j) /\
  (3 <= Z.of_nat (length src) ->
   Decompress.dict_size s <= 2 * (Decompress.dict_next s - 1)).
Proof.
  intros H. apply run_Done in H as (n & cw & codes & s0 & -> & Hs & Hl).
  destruct (start_table _ _ _ Hs) as (Htab0 & Hn0).
  apply start_Done in Hs as (_ & _ & E0).
  assert (Hsz : Decompress.dict_size s0 = 257) by (rewrite E0; reflexivity).
  assert (Hp0 : exists j : nat, Decompress.dict_size s0 = 257 * 2 ^ Z.of_nat j).
  { exists 0%nat. rewrite Hsz. reflexivity. }
  destruct (loop_size _ _ _ _ Htab0 Hp0 (or_introl (conj Hsz Hn0)) Hl) as (Hpow & Hhalf).
  split; [exact Hpow|]. intros Hlen.
    destruct Hhalf as [(-> & _)|Hh]; [cbn [length] in Hlen; lia | exact Hh].
Qed.

Lemma run_prefix (src more : list Z) (s' : Decompress.state) :
  (2 <= length src)%nat ->
  Decompress.run (src ++ more) = Done s' ->
  exists s, Decompress.run src = Done s /\
            Decompress.loop (u32 (hd 0 src + 1)) more s = Done s'.
Proof.
  intros Hlen H. destruct src as [|n0 [|cw0 codes0]]; cbn [length] in Hlen; try lia.
  apply run_Done in H as (n & cw & codes & s0 & E & Hs & Hl).
  cbn [app] in E. injection E as <- <- <-.
  rewrite loop_app in Hl. inv_bind Hl. rename a into s1.
  exists s1. split; [|exact Hl].
  apply run_Done. exists n0, cw0, codes0, s0. split; [reflexivity|]. split; assumption.
Qed.

Lemma compress_head (B : list byte) (di : Z) (dest : list Z) :
  lzw_compress B = Done (di, dest) ->
  hd 0 dest = u32 (Z.of_nat (length B)).
Proof.
  intros H. unfold lzw_compress in H. inv_bind H. injection H as _ <-. reflexivity.
Qed.

(** ** The table of lzw_decompress *)

(** X1: the two arrays of the table of [lzw_decompress] agree and every
    entry is well formed, at every point of a run: the length kept in
    [dict_lens] for a slot that holds a block is the size of the block; no
    entry is empty; the entry of slot c has at most max(1, c - 255) bytes;
    and every entry above the 256 seeded ones is one byte, alone or after
    the entry of a lower slot (lines 133-135, 140-143 and 162-164 build it
    so; the byte is alone when line 133 copies from a slot whose length
    the [memset] has cleared). *)
Theorem table_entries (src : list Z) (s : Decompress.state) :
  Decompress.run src = Done s ->
  forall (c : Z) (e : list byte),
  Decompress.dict s !! c = Some e ->
  Decompress.dict_lens s !! c = Some (Z.of_nat (length e)) /\
  1 <= Z.of_nat (length e) <= Z.max 1 (c - 255) /\
  (257 <= c ->
   exists p b,
     e = p ++ [b] /\
     (p = [] \/ exists j, 1 <= j < c /\ Decompress.dict s !! j = Some p)).
Proof.
  intros H c e He. destruct (run_bounds _ _ H) as (Hent & _).
  split; [exact (run_lens _ _ H c e He) | exact (Hent c e He)].
Qed.

Lemma table_entries_example :
  match Decompress.run [5; 66; 300; 66] with
  | Done s =>
      forall (c : Z) (e : list byte),
      Decompress.dict s !! c = Some e ->
      Decompress.dict_lens s !! c = Some (Z.of_nat (length e)) /\
      1 <= Z.of_nat (length e) <= Z.max 1 (c - 255) /\
      (257 <= c ->
       exists p b,
         e = p ++ [b] /\
         (p = [] \/ exists j, 1 <= j < c /\ Decompress.dict s !! j = Some p))
  | Undefined _ => False
  end.
Proof.
  destruct (Decompress.run [5; 66; 300; 66]) as [s|f] eqn:E.
  - apply (table_entries [5; 66; 300; 66] s E).
  - vm_compute in E. discriminate E.
Defined.

(** X2: the size of the table of [lzw_decompress] is 257 doubled some number
    of times (line 152 is the only assignment after line 81); it is never
    below [dict_next], and once the loop has run it is at most twice the
    number [dict_next - 1] of slots assigned. *)
Theorem table_capacity (src : list Z) (s : Decompress.state) :
  Decompress.run src = Done s ->
  (exists j : nat, Decompress.dict_size s = 257 * 2 ^ Z.of_nat j) /\
  Decompress.dict_next s <= Decompress.dict_size s < 2 ^ 32 /\
  (3 <= Z.of_nat (length src) ->
   Decompress.dict_size s <= 2 * (Decompress.dict_next s - 1)).
Proof.
  intros H. destruct (run_size _ _ H) as (Hpow & Hhalf).
  destruct (run_table _ _ H) as ((Hn & Hs & _) & _).
  split; [exact Hpow|]. split; [lia | exact Hhalf].
Qed.

Lemma table_capacity_example :
  match Decompress.run [6; 66; 257; 258] with
  | Done s =>
      (exists j : nat, Decompress.dict_size s = 257 * 2 ^ Z.of_nat j) /\
      Decompress.dict_next s <= Decompress.dict_size s < 2 ^ 32 /\
      (3 <= Z.of_nat (length [6; 66; 257; 258]) ->
       Decompress.dict_size s <= 2 * (Decompress.dict_next s - 1))
  | Undefined _ => False
  end.
Proof.
  destruct (Decompress.run [6; 66; 257; 258]) as [s|f] eqn:E.
  - apply (table_capacity [6; 66; 257; 258] s E).
  - vm_compute in E. discriminate E.
Defined.

(** X3: the cleanup loop of lines 173-175 frees exactly the blocks of the
    table: every slot it passes to [free] is inside the table and holds a
    block that was allocated and not freed before, and no block of the table
    is left when it ends. *)
Theorem cleanup_frees_all (src : list Z) (s : Decompress.state) :
  Decompress.run src = Done s ->
  cleanup s = Done ∅.
Proof.
  intros H. destruct (run_table _ _ H) as ((Hn & Hs & Hdom & _) & _).
  unfold cleanup. apply free_slots_all.
  - intros c. rewrite Hdom. lia.
  - lia.
Qed.

Lemma cleanup_frees_all_example :
  match Decompress.run [6; 66; 257; 258] with
  | Done s => cleanup s = Done ∅
  | Undefined _ => False
  end.
Proof.
  destruct (Decompress.run [6; 66; 257; 258]) as [s|f] eqn:E.
  - apply (cleanup_frees_all [6; 66; 257; 258] s E).
  - vm_compute in E. discriminate E.
Defined.

(** ** The output of lzw_decompress *)

(** X4: when [lzw_decompress] returns, [dlen] is the number of bytes
    written; it is at most the size [src[0] + 1] of the buffer allocated in
    line 113; every codeword after the length codeword gives one byte or
    more, and the k-th of them gives at most k bytes, so that
    [len - 1 <= dlen <= (len - 1) * len / 2]. *)
Theorem decoded_length (src : list Z) (m : decompression_meta) :
  lzw_decompress src = Done m ->
  dlen m = Z.of_nat (length (str m)) /\
  dlen m <= u32 (hd 0 src + 1) /\
  Z.of_nat (length src) - 1 <= dlen m /\
  2 * dlen m <= (Z.of_nat (length src) - 1) * Z.of_nat (length src).
Proof.
  intros H.
  assert (Hcap : dlen m <= u32 (hd 0 src + 1)).
  { destruct src as [|n codes]; [discriminate H|].
    pose proof (decompress_cap n n codes m H) as E. rewrite H in E. cbn [hd].
    destruct (Z.leb_spec (dlen m) (u32 (n + 1))); [assumption | discriminate E]. }
  unfold lzw_decompress in H. inv_bind H. injection H as <-. cbn [str dlen] in *.
  destruct (run_bounds _ _ Ha) as (_ & Hdi & Hlo & Hhi).
  split; [exact Hdi|]. split; [exact Hcap|]. split; assumption.
Qed.

Lemma decoded_length_example :
  6 = Z.of_nat (length ["A"; "A"; "A"; "A"; "A"; "A"]%byte) /\
  6 <= u32 (hd 0 [6; 66; 257; 258] + 1) /\
  Z.of_nat (length [6; 66; 257; 258]) - 1 <= 6 /\
  2 * 6 <= (Z.of_nat (length [6; 66; 257; 258]) - 1)
           * Z.of_nat (length [6; 66; 257; 258]).
Proof.
  apply (decoded_length [6; 66; 257; 258]
           {| str := ["A"; "A"; "A"; "A"; "A"; "A"]%byte; dlen := 6 |}).
  vm_compute. reflexivity.
Defined.

(** X5: [lzw_decompress] decodes from left to right and never looks ahead: if
    it returns on a stream, it returns on every truncation of the stream
    that keeps the first two elements, and what it writes for the truncated
    stream is the beginning of what it writes for the whole one.  A stream
    that was cut short is therefore not noticed. *)
Theorem decode_prefix (src more : list Z) (m' : decompression_meta) :
  (2 <= length src)%nat ->
  lzw_decompress (src ++ more) = Done m' ->
  exists m out,
    lzw_decompress src = Done m /\
    str m' = str m ++ out /\
    dlen m' = dlen m + Z.of_nat (length out).
Proof.
  intros Hlen H. unfold lzw_decompress in H. inv_bind H. rename a into s'.
  injection H as <-.
  destruct (run_prefix _ _ _ Hlen Ha) as (s & Hs & Hl).
  destruct (loop_dest _ _ _ _ Hl) as (out & Hout).
  destruct (run_bounds _ _ Hs) as (_ & Hdi & _).
  destruct (run_bounds _ _ Ha) as (_ & Hdi' & _).
  exists {| str := Decompress.dest s; dlen := Decompress.di s |}, out.
  cbn [str dlen]. split; [|split].
  - unfold lzw_decompress. rewrite Hs. reflexivity.
  - exact Hout.
  - rewrite Hdi', Hdi, Hout, length_app. lia.
Qed.

Lemma decode_prefix_example :
  exists m out,
    lzw_decompress [6; 66] = Done m /\
    str {| str := ["A"; "A"; "A"; "A"; "A"; "A"]%byte; dlen := 6 |} = str m ++ out /\
    dlen {| str := ["A"; "A"; "A"; "A"; "A"; "A"]%byte; dlen := 6 |}
    = dlen m + Z.of_nat (length out).
Proof.
  apply (decode_prefix [6; 66] [257; 258]
           {| str := ["A"; "A"; "A"; "A"; "A"; "A"]%byte; dlen := 6 |}).
  - cbn [length]. lia.
  - vm_compute. reflexivity.
Defined.

(** ** The streams lzw_decompress accepts *)

(** X6: [lzw_decompress] returns only on a stream of two elements or more
    whose second element is one of 1 .. 256 and in which every later
    codeword that is below [dict_next] when it is read (the branch of line
    124) is not 0 and follows a codeword that is below [dict_next] too, or
    that names a slot whose length the [memset] of line 159 has cleared and
    no assignment has set since (lines 133-135 then copy no byte from it,
    as on the stream [5, 66, 300, 66], decoded to "AAAA").  On every other
    stream it gives no result: the behaviour of the C code is undefined. *)
Theorem decoded_only_if_decodable (src : list Z) (m : decompression_meta) :
  lzw_decompress src = Done m ->
  decodable src = true.
Proof. apply decompress_decodable. Qed.

Lemma decoded_only_if_decodable_example :
  decodable [5; 66; 300; 66] = true.
Proof.
  apply (decoded_only_if_decodable [5; 66; 300; 66]
           {| str := ["A"; "A"; "A"; "A"]%byte; dlen := 4 |}).
  vm_compute. reflexivity.
Defined.





(** ** The streams lzw_compress writes *)

(** X9: [lzw_compress] cannot shorten a buffer by more than a square root: a
    stream of [di] elements (the length codeword and [di - 1] codewords)
    stands for at most [(di - 1) * di / 2] bytes. *)
Theorem compression_limit (B : list byte) (di : Z) (dest : list Z) :
  B <> [] ->
  Z.of_nat (length B) < 2 ^ 31 - 255 ->
  lzw_compress B = Done (di, dest) ->
  2 * Z.of_nat (length B) <= (di - 1) * di.
Proof.
  intros Hne HN H.
  assert (HN' : Z.of_nat (length B) < 2 ^ 32 - 1) by blia.
  pose proof (compress_di B di dest Hne HN' H) as Edi.
  pose proof (decompress_compress_nonempty B di dest Hne HN H) as Hd.
  unfold lzw_decompress in Hd. inv_bind Hd. injection Hd as _ Hdi.
  destruct (run_bounds _ _ Ha) as (_ & _ & _ & Hhi). lia.
Qed.

Lemma compression_limit_example :
  2 * Z.of_nat (length ["A"; "A"; "A"; "A"; "A"; "A"]%byte) <= (4 - 1) * 4.
Proof.
  apply (compression_limit ["A"; "A"; "A"; "A"; "A"; "A"]%byte 4 [6; 66; 257; 258]).
  - discriminate.
  - vm_compute. reflexivity.
  - vm_compute. reflexivity.
Defined.

(** X10: [lzw_compress] writes different streams for different buffers of
    fewer than 2^31 - 255 bytes, the empty buffer included. *)
Theorem compress_injective (B1 B2 : list byte) (r : Z * list Z) :
  Z.of_nat (length B1) < 2 ^ 31 - 255 ->
  Z.of_nat (length B2) < 2 ^ 31 - 255 ->
  lzw_compress B1 = Done r ->
  lzw_compress B2 = Done r ->
  B1 = B2.
Proof.
  intros H1 H2 E1 E2. destruct r as [di dest].
  pose proof (compress_head _ _ _ E1) as Hh1.
  pose proof (compress_head _ _ _ E2) as Hh2.
  rewrite u32_small in Hh1, Hh2 by blia.
  destruct B1 as [|b1 B1]; destruct B2 as [|b2 B2]; cbn [length] in Hh1, Hh2.
  - reflexivity.
  - lia.
  - lia.
  - assert (N1 : b1 :: B1 <> []) by (intros X; discriminate X).
    assert (N2 : b2 :: B2 <> []) by (intros X; discriminate X).
    pose proof (decompress_compress_nonempty _ _ _ N1 H1 E1) as D1.
    pose proof (decompress_compress_nonempty _ _ _ N2 H2 E2) as D2.
    rewrite D1 in D2. injection D2 as -> -> _. reflexivity.
Qed.

Lemma compress_injective_example :
  ["A"; "A"; "A"; "A"; "A"; "A"]%byte = ["A"; "A"; "A"; "A"; "A"; "A"]%byte.
Proof.
  apply (compress_injective ["A"; "A"; "A"; "A"; "A"; "A"]%byte
           ["A"; "A"; "A"; "A"; "A"; "A"]%byte (4, [6; 66; 257; 258])).
  - vm_compute. reflexivity.
  - vm_compute. reflexivity.
  - vm_compute. reflexivity.
  - vm_compute. reflexivity.
Defined.

(** ** lzw_compress reads from left to right *)

Lemma cloop_app (l1 l2 : list byte) :
  forall cs : Compress.state,
  Compress.loop (l1 ++ l2) cs =
  do cs' <- Compress.loop l1 cs; Compress.loop l2 cs'.
Proof.
  induction l1 as [|c l1 IH]; intros cs; cbn [app Compress.loop bind].
  - reflexivity.
  - destruct (Compress.step cs c) as [cs1|f]; cbn [bind]; [apply IH | reflexivity].
Qed.

Lemma cloop_dest (rest : list byte) :
  forall cs cs' : Compress.state,
  Compress.loop rest cs = Done cs' ->
  exists out, Compress.dest cs' = Compress.dest cs ++ out.
Proof.
  induction rest as [|c rest IH]; intros cs cs' H; cbn [Compress.loop] in H.
  - injection H as <-. exists []. rewrite app_nil_r. reflexivity.
  - inv_bind H. apply cstep_Done in Ha as (_ & [(_ & ->)|(_ & ->)]);
      destruct (IH _ _ H) as (out & Hout); cbn [Compress.dest] in Hout.
    + eexists. rewrite Hout, <- app_assoc. reflexivity.
    + exists out. exact Hout.
Qed.

(** X11: [lzw_compress] writes its codewords from left to right and only
    the last one (line 70) depends on where the buffer ends: if it returns
    on a buffer, it returns on every beginning B of the buffer, and the
    codewords it writes for B, the last one left out, are the first
    codewords it writes for the whole buffer. *)
Theorem compress_online (B more : list byte) (di' : Z) (dest' : list Z) :
  lzw_compress (B ++ more) = Done (di', dest') ->
  exists di dest out,
    lzw_compress B = Done (di, dest) /\
    tl dest' = removelast (tl dest) ++ out /\
    out <> [].
Proof.
  intros H. unfold lzw_compress in H. rewrite cloop_app in H.
  inv_bind H. rename a into cs2. inv_bind Ha. rename a into cs1.
  injection H as _ <-.
  destruct (cloop_dest _ _ _ Ha) as (out & Hout).
  unfold lzw_compress. rewrite Ha0. cbn [bind].
  eexists _, _, (out ++ [trie_get (Compress.dict cs2) (Compress.substr cs2)]).
  split; [reflexivity|]. cbn [tl]. split.
  - rewrite removelast_last, Hout, app_assoc. reflexivity.
  - destruct out; discriminate.
Qed.

Lemma compress_online_example :
  exists di dest out,
    lzw_compress ["A"; "A"; "A"]%byte = Done (di, dest) /\
    tl [6; 66; 257; 258] = removelast (tl dest) ++ out /\
    out <> [].
Proof.
  apply (compress_online ["A"; "A"; "A"]%byte ["A"; "A"; "A"]%byte 4 [6; 66; 257; 258]).
  vm_compute. reflexivity.
Defined.
